(** * Loan schedule simulator: a shallow embedding of [loan_calc_lib.py]

    The development follows the library top-down: the dataclasses, the
    payment formula [GetMonthlyPayment], and the month loop of [LoanCalc].

    Numbers.  Python's [float] is IEEE 754 binary64 with rounding to nearest,
    ties to even; it is modelled by the primitive type [float], which is that
    format with that rounding, so [+], [-], [*], [/] and the comparisons are
    the operations the interpreter performs, NaN, infinities and signed
    zeros included.  Python's [int] is [Z].  What Python adds to the
    hardware is kept as values of [exn]: [ZeroDivisionError] of [/],
    [ValueError] and [OverflowError] of [math.pow], [OverflowError] of the
    conversion of a large [int].

    [math.pow] calls the C library's [pow].  For the arguments the program
    passes (a float base and an [int] exponent) [libm_pow] takes the exact
    power rounded to the nearest float; a C library may differ from it in the
    last place on a power that is not exact.  The special cases around it
    are those of [math.pow] in CPython.

    The [verbose] flag of [LoanCalc] only prints and is left out, together
    with the local list [monthly_payments], which is written once and never
    read. *)

From Stdlib Require Import ZArith Lia String Floats.
From stdpp Require Import base numbers option list gmap sorting.

Local Open Scope Z_scope.
Local Open Scope float_scope.

(** ** Exceptions and the result of a computation *)

Inductive exn : Set :=
  | ZeroDivisionError
  | ValueError
  | OverflowError
  | TypeError
  | IndexError.

Inductive outcome (A : Type) : Type :=
  | Ok (a : A)
  | Raise (e : exn)
  | OutOfFuel.
Arguments Ok {A} a.
Arguments Raise {A} e.
Arguments OutOfFuel {A}.

Global Instance outcome_ret : MRet outcome := λ A a, Ok a.
Global Instance outcome_bind : MBind outcome := λ A B k m,
  match m with
  | Ok a => k a
  | Raise e => Raise e
  | OutOfFuel => OutOfFuel
  end.

(** ** Floats *)

(** Python's [<], [<=] and [==] on floats: false as soon as an operand is
    NaN, and [0.0 == -0.0]. *)
Definition flt (x y : float) : Prop := (x <? y) = true.
Definition fle (x y : float) : Prop := (x <=? y) = true.
Definition feq (x y : float) : Prop := (x =? y) = true.
Infix "<" := flt : float_scope.
Infix "≤" := fle : float_scope.

Global Instance flt_dec : RelDecision flt.
Proof. intros x y. unfold flt. apply _. Defined.
Global Instance fle_dec : RelDecision fle.
Proof. intros x y. unfold fle. apply _. Defined.
Global Instance feq_dec : RelDecision feq.
Proof. intros x y. unfold feq. apply _. Defined.

(** An integer used where Python computes with floats, rounded to the
    nearest float (exact up to [2^53]). *)
Definition fl (z : Z) : float :=
  SF2Prim (binary_normalize prec emax z 0 false).

(** The conversion of an [int] argument to a C double: [OverflowError] when
    the integer is too large. *)
Definition float_of_int (z : Z) : outcome float :=
  if is_infinity (fl z) then Raise OverflowError else Ok (fl z).

(** The integer that a float with an integral value stands for. *)
Definition Z_of_float (y : float) : Z :=
  match Prim2SF y with
  | S754_finite s m e => cond_Zopp s (Z.shiftl (Z.pos m) e)
  | _ => 0
  end.

(** ** Float operations that can raise *)

(** [x / y] on floats: [ZeroDivisionError] on a zero divisor. *)
Definition float_div (x y : float) : outcome float :=
  if bool_decide (feq y 0) then Raise ZeroDivisionError else Ok (x / y).

(** [pow(x, n)] of the C library for a finite [x] other than 0 and an
    integer [n] other than 0: the exact power [x^n], rounded once. *)
Definition libm_pow (x : float) (n : Z) : float :=
  match Prim2SF x, n with
  | S754_finite s m e, Z.pos k =>
      let r :=
        SF2Prim (binary_normalize prec emax (Z.pos (m ^ k)) (e * Z.pos k)
                   false) in
      if s && Z.odd n then - r else r
  | S754_finite s m e, Z.neg k =>
      let r :=
        SF2Prim (SFdiv prec emax (S754_finite false 1 0)
                   (S754_finite false (m ^ k) (e * Z.pos k))) in
      if s && Z.odd n then - r else r
  | _, _ => x
  end.

(** [math.pow(x, y)] for an [int] [y].  The exponent is converted to a
    float first.  Then, as in CPython: anything to the power 0 is 1; a NaN
    base gives NaN; an infinite base gives an infinity or a zero; 1 to any
    power is 1; a zero base with a negative exponent is a domain error
    ([ValueError]); and a finite base and exponent whose power is infinite
    is a range error ([OverflowError]). *)
Definition math_pow (x : float) (y : Z) : outcome float :=
  yf ← float_of_int y;
  let n := Z_of_float yf in
  if bool_decide (n = 0)%Z then Ok 1
  else if is_nan x then Ok x
  else if is_infinity x then
    Ok (if (0 <? n)%Z then (if Z.odd n then x else abs x)
        else (if Z.odd n && (x <? 0) then - 0 else 0))
  else if bool_decide (feq x 1) then Ok 1
  else if bool_decide (feq x 0) then
    if (n <? 0)%Z then Raise ValueError
    else Ok (if Z.odd n then x else 0)
  else
    let r := libm_pow x n in
    if is_infinity r then Raise OverflowError else Ok r.

(** Truth value of an [Optional[float]]: [None] and [0.0] are false. *)
Definition truthy (o : option float) : bool :=
  match o with
  | Some v => negb (bool_decide (feq v 0))
  | None => false
  end.

(** [min] of two floats, as Python's builtin: the first argument unless the
    second is strictly smaller. *)
Definition float_min (x y : float) : float :=
  if bool_decide (y < x) then y else x.

(** [l.pop()]: the last element and the list without it; [IndexError] on an
    empty list. *)
Definition pop {A : Type} (l : list A) : outcome (A * list A) :=
  match reverse l with
  | [] => Raise IndexError
  | x :: r => Ok (x, reverse r)
  end.

(** [l[i]] for an index counted from the front. *)
Definition index {A : Type} (l : list A) (i : nat) : outcome A :=
  match l !! i with
  | Some x => Ok x
  | None => Raise IndexError
  end.

(** ** The dataclasses *)

Module Loan.
Record t : Type := mk {
  name : option string;
  amount : float;
  rate : float;
  term : Z;
  fixed_period : Z;
  var_rate : option float
}.

(** Field assignments [loan.amount = v] and [loan.fixed_period = v] on a
    copy. *)
Definition set_amount (v : float) (l : t) : t :=
  mk (name l) v (rate l) (term l) (fixed_period l) (var_rate l).
Definition set_fixed_period (v : Z) (l : t) : t :=
  mk (name l) (amount l) (rate l) (term l) v (var_rate l).
End Loan.

Module Budget.
Record t : Type := mk {
  name : option string;
  monthly_income : float;
  salary_rate_increase : float;
  monthly_expenses : float;
  expenses_rate_increase : float;
  monthly_prop_tax : float;
  min_principal_payment : float;
  month_offset : Z;
  overflow_principal_percent : option float;
  overflow_principal_abs : option float
}.

Definition set_monthly_income (v : float) (b : t) : t :=
  mk (name b) v (salary_rate_increase b) (monthly_expenses b)
     (expenses_rate_increase b) (monthly_prop_tax b)
     (min_principal_payment b) (month_offset b)
     (overflow_principal_percent b) (overflow_principal_abs b).
Definition set_monthly_expenses (v : float) (b : t) : t :=
  mk (name b) (monthly_income b) (salary_rate_increase b) v
     (expenses_rate_increase b) (monthly_prop_tax b)
     (min_principal_payment b) (month_offset b)
     (overflow_principal_percent b) (overflow_principal_abs b).
End Budget.

Inductive PaymentType : Set :=
  | DIRECT
  | REAMORTIZING.

Global Instance PaymentType_eq_dec : EqDecision PaymentType.
Proof. solve_decision. Defined.

Module PrincipalPayment.
Record t : Type := mk {
  type : PaymentType;
  amount : float;
  time : Z;
  new_loan_terms : option Loan.t
}.
End PrincipalPayment.

Module LoanEval.
Record t : Type := mk {
  loan_name : option string;
  principal_remaining : float;
  principal_paid : float;
  interest_paid : float;
  length : Z;
  monthly_payments : float
}.
End LoanEval.

(** ** GetMonthlyPayment *)

Definition GetMonthlyPayment (loan : Loan.t) : outcome float :=
  let monthly_int := Loan.rate loan / (fl 12 * fl 100) in
  p ← math_pow (1 + monthly_int) (Loan.term loan);
  p' ← math_pow (1 + monthly_int) (Loan.term loan);
  q ← float_div (monthly_int * p) (p' - 1);
  Ok (Loan.amount loan * q).

(** The monthly rate of an optional annual rate:
    [0.0 if not r else r / (12 * 100)]. *)
Definition monthly_var_rate (r : option float) : float :=
  if truthy r then default 0 r / (fl 12 * fl 100) else 0.

(** ** LoanCalc: the local variables of the loop *)

Record state : Type := mkState {
  budget : Budget.t;                       (* the working copy *)
  payments : list PrincipalPayment.t;      (* reversed, popped from the end *)
  monthly_payment : float;
  remaining_principal : float;
  terms_paid : Z;
  monthly_int : float;
  monthly_var_int : float;
  fixed_period : Z;
  next_lump_sum : option PrincipalPayment.t;
  budget_savings : float;
  current_exit : nat;
  last_exit : bool;
  interest_paid : float;
  loan_evals : list LoanEval.t
}.

Section LoanCalc.

(** [loan] and [exits] are copied on entry and never written afterwards. *)
Variable loan : Loan.t.
Variable exits : list Z.

(** The [LoanEval] built at an exit and after the loop. *)
Definition snapshot (s : state) : LoanEval.t :=
  {| LoanEval.loan_name := Loan.name loan;
     LoanEval.principal_remaining := remaining_principal s;
     LoanEval.principal_paid := Loan.amount loan - remaining_principal s;
     LoanEval.interest_paid := interest_paid s;
     LoanEval.length := terms_paid s;
     LoanEval.monthly_payments := monthly_payment s |}.

(** [next_lump_sum = payments.pop() if payments else None]. *)
Definition pop_payment (ps : list PrincipalPayment.t)
    : outcome (option PrincipalPayment.t * list PrincipalPayment.t) :=
  match ps with
  | [] => Ok (None, ps)
  | _ => '(p, rest) ← pop ps; Ok (Some p, rest)
  end.

(** Everything before the [while]. *)
Definition init (budget0 : Budget.t) (payments0 : list PrincipalPayment.t)
    : outcome state :=
  monthly_payment0 ← GetMonthlyPayment loan;
  '(next0, payments1) ←
    match payments0 with
    | [] => Ok (None, payments0)
    | _ => '(p, rest) ← pop (reverse payments0); Ok (Some p, rest)
    end;
  Ok {| budget := budget0;
        payments := payments1;
        monthly_payment := monthly_payment0;
        remaining_principal := Loan.amount loan;
        terms_paid := 0;
        monthly_int := Loan.rate loan / (fl 12 * fl 100);
        monthly_var_int := monthly_var_rate (Loan.var_rate loan);
        fixed_period := Loan.fixed_period loan;
        next_lump_sum := next0;
        budget_savings := 0;
        current_exit := 0;
        last_exit := bool_decide (exits = []);
        interest_paid := 0;
        loan_evals := [] |}.

(** *** The body of the loop, in the order of the source *)

(** Lines 149-159: an exit due this month is recorded before the month is
    paid. *)
Definition check_exit (s : state) : outcome state :=
  if negb (last_exit s) then
    e ← index exits (current_exit s);
    if bool_decide (terms_paid s = e) then
      let current_exit' := S (current_exit s) in
      Ok {| budget := budget s;
            payments := payments s;
            monthly_payment := monthly_payment s;
            remaining_principal := remaining_principal s;
            terms_paid := terms_paid s;
            monthly_int := monthly_int s;
            monthly_var_int := monthly_var_int s;
            fixed_period := fixed_period s;
            next_lump_sum := next_lump_sum s;
            budget_savings := budget_savings s;
            current_exit := current_exit';
            last_exit := bool_decide (current_exit' = length exits);
            interest_paid := interest_paid s;
            loan_evals := loan_evals s ++ [snapshot s] |}
    else Ok s
  else Ok s.

(** Lines 164-172: the reamortization of a lump sum.  The copy
    [reamor_loan] receives the remaining principal as its amount, and later
    its shifted fixed period; the loop's own [fixed_period] is not
    assigned. *)
Definition reamortize (lump : PrincipalPayment.t) (remaining : float)
    (terms_paid0 : Z) : outcome (float * float * float) :=
  match PrincipalPayment.new_loan_terms lump with
  | None => Raise TypeError
  | Some terms =>
      let reamor_loan := Loan.set_amount remaining terms in
      monthly_payment' ← GetMonthlyPayment reamor_loan;
      let reamor_loan :=
        Loan.set_fixed_period
          (Loan.fixed_period reamor_loan + terms_paid0)%Z reamor_loan in
      Ok (monthly_payment',
          Loan.rate reamor_loan / (fl 12 * fl 100),
          monthly_var_rate (Loan.var_rate reamor_loan))
  end.

(** Lines 162-177: a lump sum due this month. *)
Definition apply_lump_sum (s : state) : outcome state :=
  match next_lump_sum s with
  | Some lump =>
      if bool_decide (PrincipalPayment.time lump = terms_paid s) then
        let remaining := remaining_principal s - PrincipalPayment.amount lump in
        '(monthly_payment', monthly_int', monthly_var_int') ←
          (if bool_decide (PrincipalPayment.type lump = REAMORTIZING)
           then reamortize lump remaining (terms_paid s)
           else Ok (monthly_payment s, monthly_int s, monthly_var_int s));
        '(next, rest) ← pop_payment (payments s);
        Ok {| budget := budget s;
              payments := rest;
              monthly_payment := monthly_payment';
              remaining_principal := remaining;
              terms_paid := terms_paid s;
              monthly_int := monthly_int';
              monthly_var_int := monthly_var_int';
              fixed_period := fixed_period s;
              next_lump_sum := next;
              budget_savings := budget_savings s;
              current_exit := current_exit s;
              last_exit := last_exit s;
              interest_paid := interest_paid s;
              loan_evals := loan_evals s |}
      else Ok s
  | None => Ok s
  end.

(** Lines 179-181: the saved overflow is paid into the principal once it
    exceeds the minimum. *)
Definition apply_savings (s : state) : state :=
  if bool_decide (Budget.min_principal_payment (budget s) < budget_savings s)
  then {| budget := budget s;
          payments := payments s;
          monthly_payment := monthly_payment s;
          remaining_principal := remaining_principal s - budget_savings s;
          terms_paid := terms_paid s;
          monthly_int := monthly_int s;
          monthly_var_int := monthly_var_int s;
          fixed_period := fixed_period s;
          next_lump_sum := next_lump_sum s;
          budget_savings := 0;
          current_exit := current_exit s;
          last_exit := last_exit s;
          interest_paid := interest_paid s;
          loan_evals := loan_evals s |}
  else s.

(** Lines 184-198: the locals of the interest calculation. *)
Definition interest (s : state) : float :=
  monthly_int s * remaining_principal s.

Definition past_fixed (s : state) : bool :=
  bool_decide (fixed_period s ≤ terms_paid s)%Z.

Definition extra_interest (s : state) : float :=
  (monthly_var_int s - monthly_int s) * remaining_principal s.

(** [monthly_savings] as it stands at line 198, after the surcharge. *)
Definition monthly_savings (s : state) : float :=
  let monthly_savings0 :=
    Budget.monthly_income (budget s)
    - (Budget.monthly_expenses (budget s) + monthly_payment s
       + Budget.monthly_prop_tax (budget s)) in
  if past_fixed s then monthly_savings0 - extra_interest s
  else monthly_savings0.

(** Lines 201-204: what the month adds to [budget_savings]. *)
Definition overflow (s : state) : float :=
  match Budget.overflow_principal_percent (budget s) with
  | Some percent => monthly_savings s * (percent / fl 100)
  | None =>
      if truthy (Budget.overflow_principal_abs (budget s))
      then float_min (monthly_savings s)
             (default 0 (Budget.overflow_principal_abs (budget s)))
      else 0
  end.

(** Lines 184-206: interest, surcharge, principal, overflow, and the month
    counter. *)
Definition pay_month (s : state) : state :=
  let interest_paid1 := interest_paid s + interest s in
  let interest_paid2 :=
    if past_fixed s then interest_paid1 + extra_interest s
    else interest_paid1 in
  {| budget := budget s;
     payments := payments s;
     monthly_payment := monthly_payment s;
     remaining_principal :=
       remaining_principal s - (monthly_payment s - interest s);
     terms_paid := (terms_paid s + 1)%Z;
     monthly_int := monthly_int s;
     monthly_var_int := monthly_var_int s;
     fixed_period := fixed_period s;
     next_lump_sum := next_lump_sum s;
     budget_savings :=
       match Budget.overflow_principal_percent (budget s) with
       | Some _ => budget_savings s + overflow s
       | None =>
           if truthy (Budget.overflow_principal_abs (budget s))
           then budget_savings s + overflow s
           else budget_savings s
       end;
     current_exit := current_exit s;
     last_exit := last_exit s;
     interest_paid := interest_paid2;
     loan_evals := loan_evals s |}.

(** Lines 216-218: the yearly raise of income and expenses. *)
Definition update_budget (s : state) : state :=
  if bool_decide
       ((terms_paid s + Budget.month_offset (budget s)) `mod` 12 = 0)%Z
  then
    let b := budget s in
    let b :=
      Budget.set_monthly_income
        (Budget.monthly_income b
         * (1 + Budget.salary_rate_increase b / fl 100)) b in
    let b :=
      Budget.set_monthly_expenses
        (Budget.monthly_expenses b
         * (1 + Budget.expenses_rate_increase b / fl 100)) b in
    {| budget := b;
       payments := payments s;
       monthly_payment := monthly_payment s;
       remaining_principal := remaining_principal s;
       terms_paid := terms_paid s;
       monthly_int := monthly_int s;
       monthly_var_int := monthly_var_int s;
       fixed_period := fixed_period s;
       next_lump_sum := next_lump_sum s;
       budget_savings := budget_savings s;
       current_exit := current_exit s;
       last_exit := last_exit s;
       interest_paid := interest_paid s;
       loan_evals := loan_evals s |}
  else s.

(** One iteration of the [while]. *)
Definition month (s : state) : outcome state :=
  s ← check_exit s;
  s ← apply_lump_sum s;
  Ok (update_budget (pay_month (apply_savings s))).

(** [while remaining_principal > 0]. *)
Fixpoint loop (fuel : nat) (s : state) : outcome state :=
  if bool_decide (0 < remaining_principal s) then
    match fuel with
    | O => OutOfFuel
    | S fuel' => s' ← month s; loop fuel' s'
    end
  else Ok s.

Definition LoanCalc (budget0 : Budget.t)
    (payments0 : list PrincipalPayment.t) (fuel : nat)
    : outcome (list LoanEval.t) :=
  s0 ← init budget0 payments0;
  s ← loop fuel s0;
  Ok (loan_evals s ++ [snapshot s]).

End LoanCalc.

(** ** The same program over a store of objects

    The value-level model above cannot say what a call does to the objects
    its caller passed in.  [Store] models the Python heap: dataclass
    instances and lists live at locations, arguments and locals holding
    them are references, copies are allocations, and field or list updates
    are writes.  The [LoanEval] results are built fresh and only returned,
    so they stay values. *)

Module Store.

Definition loc : Type := positive.

(** A [PrincipalPayment] instance: its [new_loan_terms] refers to a
    [Loan] instance. *)
Module Payment.
Record t : Type := mk {
  type : PaymentType;
  amount : float;
  time : Z;
  new_loan_terms : option loc
}.
End Payment.

Inductive obj : Type :=
  | LoanObj (l : Loan.t)
  | BudgetObj (b : Budget.t)
  | PaymentObj (p : Payment.t)
  | PaymentList (ps : list loc)
  | IntList (zs : list Z).

(** Computations over the store; the store survives an exception. *)
Definition M (A : Type) : Type := gmap loc obj → outcome A * gmap loc obj.

Global Instance M_ret : MRet M := λ A a h, (Ok a, h).
Global Instance M_bind : MBind M := λ A B k m h,
  match m h with
  | (Ok a, h') => k a h'
  | (Raise e, h') => (Raise e, h')
  | (OutOfFuel, h') => (OutOfFuel, h')
  end.

Definition lift {A : Type} (o : outcome A) : M A := λ h, (o, h).

Definition alloc (o : obj) : M loc := λ h,
  let r := fresh (dom h) in (Ok r, <[r:=o]> h).

Definition put (r : loc) (o : obj) : M unit := λ h, (Ok tt, <[r:=o]> h).

Definition get_loan (r : loc) : M Loan.t := λ h,
  match h !! r with
  | Some (LoanObj l) => (Ok l, h)
  | _ => (Raise TypeError, h)
  end.

Definition get_budget (r : loc) : M Budget.t := λ h,
  match h !! r with
  | Some (BudgetObj b) => (Ok b, h)
  | _ => (Raise TypeError, h)
  end.

Definition get_payment (r : loc) : M Payment.t := λ h,
  match h !! r with
  | Some (PaymentObj p) => (Ok p, h)
  | _ => (Raise TypeError, h)
  end.

Definition get_payments (r : loc) : M (list loc) := λ h,
  match h !! r with
  | Some (PaymentList ps) => (Ok ps, h)
  | _ => (Raise TypeError, h)
  end.

Definition get_exits (r : loc) : M (list Z) := λ h,
  match h !! r with
  | Some (IntList zs) => (Ok zs, h)
  | _ => (Raise TypeError, h)
  end.

(** [dataclasses.replace(x)] and [xs[:]]: a new object with the same
    fields, a new list with the same elements. *)
Definition replace_loan (r : loc) : M loc :=
  l ← get_loan r; alloc (LoanObj l).
Definition replace_budget (r : loc) : M loc :=
  b ← get_budget r; alloc (BudgetObj b).
Definition copy_payments (r : loc) : M loc :=
  ps ← get_payments r; alloc (PaymentList ps).
Definition copy_exits (r : loc) : M loc :=
  zs ← get_exits r; alloc (IntList zs).

(** [GetMonthlyPayment] reads the fields of the instance it is given. *)
Definition GetMonthlyPayment (r : loc) : M float :=
  l ← get_loan r; lift (GetMonthlyPayment l).

(** [payments.reverse()] and [payments.pop()] update the list in place. *)
Definition reverse_payments (r : loc) : M unit :=
  ps ← get_payments r; put r (PaymentList (reverse ps)).
Definition pop_payments (r : loc) : M loc :=
  ps ← get_payments r;
  '(p, rest) ← lift (pop ps);
  _ ← put r (PaymentList rest);
  mret p.

(** [payments.pop() if payments else None]. *)
Definition pop_payment (r : loc) : M (option loc) :=
  ps ← get_payments r;
  match ps with
  | [] => mret None
  | _ => p ← pop_payments r; mret (Some p)
  end.

Record locals : Type := mkLocals {
  loan : loc;
  budget : loc;
  payments : loc;
  exits : loc;
  monthly_payment : float;
  remaining_principal : float;
  terms_paid : Z;
  monthly_int : float;
  monthly_var_int : float;
  fixed_period : Z;
  next_lump_sum : option loc;
  budget_savings : float;
  current_exit : nat;
  last_exit : bool;
  interest_paid : float;
  loan_evals : list LoanEval.t
}.

Definition snapshot (v : locals) : M LoanEval.t :=
  l ← get_loan (loan v);
  mret {| LoanEval.loan_name := Loan.name l;
          LoanEval.principal_remaining := remaining_principal v;
          LoanEval.principal_paid := Loan.amount l - remaining_principal v;
          LoanEval.interest_paid := interest_paid v;
          LoanEval.length := terms_paid v;
          LoanEval.monthly_payments := monthly_payment v |}.

(** Lines 115-142. *)
Definition init (loan0 budget0 payments0 exits0 : loc) : M locals :=
  loan ← replace_loan loan0;
  budget ← replace_budget budget0;
  payments ← copy_payments payments0;
  exits ← copy_exits exits0;
  monthly_payment0 ← GetMonthlyPayment loan;
  l ← get_loan loan;
  ps ← get_payments payments;
  next0 ←
    match ps with
    | [] => mret None
    | _ => _ ← reverse_payments payments;
           p ← pop_payments payments;
           mret (Some p)
    end;
  zs ← get_exits exits;
  mret {| loan := loan;
          budget := budget;
          payments := payments;
          exits := exits;
          monthly_payment := monthly_payment0;
          remaining_principal := Loan.amount l;
          terms_paid := 0;
          monthly_int := Loan.rate l / (fl 12 * fl 100);
          monthly_var_int := monthly_var_rate (Loan.var_rate l);
          fixed_period := Loan.fixed_period l;
          next_lump_sum := next0;
          budget_savings := 0;
          current_exit := 0;
          last_exit := bool_decide (zs = []);
          interest_paid := 0;
          loan_evals := [] |}.

(** Lines 149-159. *)
Definition check_exit (v : locals) : M locals :=
  if negb (last_exit v) then
    zs ← get_exits (exits v);
    e ← lift (index zs (current_exit v));
    if bool_decide (terms_paid v = e) then
      let current_exit' := S (current_exit v) in
      ev ← snapshot v;
      mret {| loan := loan v;
              budget := budget v;
              payments := payments v;
              exits := exits v;
              monthly_payment := monthly_payment v;
              remaining_principal := remaining_principal v;
              terms_paid := terms_paid v;
              monthly_int := monthly_int v;
              monthly_var_int := monthly_var_int v;
              fixed_period := fixed_period v;
              next_lump_sum := next_lump_sum v;
              budget_savings := budget_savings v;
              current_exit := current_exit';
              last_exit := bool_decide (current_exit' = length zs);
              interest_paid := interest_paid v;
              loan_evals := loan_evals v ++ [ev] |}
    else mret v
  else mret v.

(** Lines 165-172: the new terms are copied, and the copy is written. *)
Definition reamortize (p : Payment.t) (remaining : float) (terms_paid0 : Z)
    : M (float * float * float) :=
  match Payment.new_loan_terms p with
  | None => lift (Raise TypeError)
  | Some terms =>
      reamor_loan ← replace_loan terms;
      l ← get_loan reamor_loan;
      _ ← put reamor_loan (LoanObj (Loan.set_amount remaining l));
      monthly_payment' ← GetMonthlyPayment reamor_loan;
      l ← get_loan reamor_loan;
      _ ← put reamor_loan
            (LoanObj (Loan.set_fixed_period
                        (Loan.fixed_period l + terms_paid0)%Z l));
      l ← get_loan reamor_loan;
      mret (monthly_payment',
            Loan.rate l / (fl 12 * fl 100),
            monthly_var_rate (Loan.var_rate l))
  end.

(** Lines 162-177. *)
Definition apply_lump_sum (v : locals) : M locals :=
  match next_lump_sum v with
  | Some lump =>
      p ← get_payment lump;
      if bool_decide (Payment.time p = terms_paid v) then
        let remaining := remaining_principal v - Payment.amount p in
        '(monthly_payment', monthly_int', monthly_var_int') ←
          (if bool_decide (Payment.type p = REAMORTIZING)
           then reamortize p remaining (terms_paid v)
           else mret (monthly_payment v, monthly_int v, monthly_var_int v));
        next ← pop_payment (payments v);
        mret {| loan := loan v;
                budget := budget v;
                payments := payments v;
                exits := exits v;
                monthly_payment := monthly_payment';
                remaining_principal := remaining;
                terms_paid := terms_paid v;
                monthly_int := monthly_int';
                monthly_var_int := monthly_var_int';
                fixed_period := fixed_period v;
                next_lump_sum := next;
                budget_savings := budget_savings v;
                current_exit := current_exit v;
                last_exit := last_exit v;
                interest_paid := interest_paid v;
                loan_evals := loan_evals v |}
      else mret v
  | None => mret v
  end.

(** Lines 179-181. *)
Definition apply_savings (v : locals) : M locals :=
  b ← get_budget (budget v);
  if bool_decide (Budget.min_principal_payment b < budget_savings v)
  then mret {| loan := loan v;
               budget := budget v;
               payments := payments v;
               exits := exits v;
               monthly_payment := monthly_payment v;
               remaining_principal :=
                 remaining_principal v - budget_savings v;
               terms_paid := terms_paid v;
               monthly_int := monthly_int v;
               monthly_var_int := monthly_var_int v;
               fixed_period := fixed_period v;
               next_lump_sum := next_lump_sum v;
               budget_savings := 0;
               current_exit := current_exit v;
               last_exit := last_exit v;
               interest_paid := interest_paid v;
               loan_evals := loan_evals v |}
  else mret v.

(** Lines 184-206. *)
Definition pay_month (v : locals) : M locals :=
  b ← get_budget (budget v);
  let monthly_savings :=
    Budget.monthly_income b
    - (Budget.monthly_expenses b + monthly_payment v
       + Budget.monthly_prop_tax b) in
  let interest := monthly_int v * remaining_principal v in
  let interest_paid1 := interest_paid v + interest in
  let past := bool_decide (fixed_period v ≤ terms_paid v)%Z in
  let extra_interest :=
    (monthly_var_int v - monthly_int v) * remaining_principal v in
  let monthly_savings :=
    if past then monthly_savings - extra_interest else monthly_savings in
  let interest_paid2 :=
    if past then interest_paid1 + extra_interest else interest_paid1 in
  mret {| loan := loan v;
          budget := budget v;
          payments := payments v;
          exits := exits v;
          monthly_payment := monthly_payment v;
          remaining_principal :=
            remaining_principal v - (monthly_payment v - interest);
          terms_paid := (terms_paid v + 1)%Z;
          monthly_int := monthly_int v;
          monthly_var_int := monthly_var_int v;
          fixed_period := fixed_period v;
          next_lump_sum := next_lump_sum v;
          budget_savings :=
            match Budget.overflow_principal_percent b with
            | Some percent =>
                budget_savings v + monthly_savings * (percent / fl 100)
            | None =>
                if truthy (Budget.overflow_principal_abs b)
                then budget_savings v
                     + float_min monthly_savings
                         (default 0 (Budget.overflow_principal_abs b))
                else budget_savings v
            end;
          current_exit := current_exit v;
          last_exit := last_exit v;
          interest_paid := interest_paid2;
          loan_evals := loan_evals v |}.

(** Lines 216-218: the two fields of the working budget are written. *)
Definition update_budget (v : locals) : M unit :=
  b ← get_budget (budget v);
  if bool_decide ((terms_paid v + Budget.month_offset b) `mod` 12 = 0)%Z
  then
    _ ← put (budget v)
          (BudgetObj (Budget.set_monthly_income
                        (Budget.monthly_income b
                         * (1 + Budget.salary_rate_increase b / fl 100)) b));
    b ← get_budget (budget v);
    put (budget v)
      (BudgetObj (Budget.set_monthly_expenses
                    (Budget.monthly_expenses b
                     * (1 + Budget.expenses_rate_increase b / fl 100)) b))
  else mret tt.

Definition month (v : locals) : M locals :=
  v ← check_exit v;
  v ← apply_lump_sum v;
  v ← apply_savings v;
  v ← pay_month v;
  _ ← update_budget v;
  mret v.

Fixpoint loop (fuel : nat) (v : locals) : M locals :=
  if bool_decide (0 < remaining_principal v) then
    match fuel with
    | O => lift OutOfFuel
    | S fuel' => v' ← month v; loop fuel' v'
    end
  else mret v.

Definition LoanCalc (loan0 budget0 payments0 exits0 : loc) (fuel : nat)
    : M (list LoanEval.t) :=
  v0 ← init loan0 budget0 payments0 exits0;
  v ← loop fuel v0;
  ev ← snapshot v;
  mret (loan_evals v ++ [ev]).

End Store.


(** ** Notions used in the statements *)

(** One iteration of the [while]: the guard holds and the body returns. *)
Definition step (loan : Loan.t) (exits : list Z) (s s' : state) : Prop :=
  0 < remaining_principal s ∧ month loan exits s = Ok s'.

(** The loop cut off after [n] iterations: the locals after [n] months, or
    at payoff when that comes first. *)
Fixpoint after_months (loan : Loan.t) (exits : list Z) (n : nat) (s : state)
    : outcome state :=
  match n with
  | O => Ok s
  | S n' =>
      if bool_decide (0 < remaining_principal s)
      then s' ← month loan exits s; after_months loan exits n' s'
      else Ok s
  end.

(** The locals at the sweep test of line 179: after the exit check and the
    lump sum of the month. *)
Definition before_sweep (loan : Loan.t) (exits : list Z) (s : state)
    : outcome state :=
  s ← check_exit loan exits s; apply_lump_sum s.

(** The remaining principal after [n] months of a call. *)
Definition trajectory (loan : Loan.t) (exits : list Z) (budget0 : Budget.t)
    (payments0 : list PrincipalPayment.t) (n : nat) : outcome float :=
  s0 ← init loan exits budget0 payments0;
  s ← after_months loan exits n s0;
  Ok (remaining_principal s).

Definition strictly_ascending (exits : list Z) : Prop :=
  ∀ i a b, exits !! i = Some a → exits !! S i = Some b → (a < b)%Z.

(** The exit cursor at the top of the loop: what was emitted is a prefix of
    [exits], every emitted month is in the past, and the pending one is
    not. *)
Definition cursor_ok (exits : list Z) (s : state) : Prop :=
  (current_exit s ≤ length exits)%nat
  ∧ last_exit s = bool_decide (current_exit s = length exits)
  ∧ LoanEval.length <$> loan_evals s = take (current_exit s) exits
  ∧ (∀ e, e ∈ take (current_exit s) exits → (0 ≤ e < terms_paid s)%Z)
  ∧ (∀ e, exits !! current_exit s = Some e → (terms_paid s ≤ e ∨ e < 0)%Z)
  ∧ (0 ≤ terms_paid s)%Z.

(** A budget that never adds to [budget_savings]. *)
Definition no_overflow (b : Budget.t) : Prop :=
  match Budget.overflow_principal_percent b with
  | Some percent => percent = 0
  | None => truthy (Budget.overflow_principal_abs b) = false
  end.

(** The savings that a budget without overflow leaves behind: nothing, or
    the NaN of an infinite leftover times zero, which no test exceeds. *)
Definition savings_idle (s : state) : Prop :=
  budget_savings s = 0 ∨ budget_savings s = nan.

(** Two sets of locals that agree on everything the principal depends on;
    they may differ in [monthly_var_int], [fixed_period], [interest_paid]
    and [loan_evals], and their savings are idle. *)
Definition same_schedule (s t : state) : Prop :=
  budget s = budget t ∧ payments s = payments t
  ∧ monthly_payment s = monthly_payment t
  ∧ remaining_principal s = remaining_principal t
  ∧ terms_paid s = terms_paid t
  ∧ monthly_int s = monthly_int t
  ∧ next_lump_sum s = next_lump_sum t
  ∧ savings_idle s ∧ savings_idle t
  ∧ current_exit s = current_exit t
  ∧ last_exit s = last_exit t.

Definition schedule_rel (s t : state) : Prop :=
  same_schedule s t ∧ no_overflow (budget s).

Definition rel_outcome {A B : Type} (R : A → B → Prop)
    (o1 : outcome A) (o2 : outcome B) : Prop :=
  match o1, o2 with
  | Ok a, Ok b => R a b
  | Raise e1, Raise e2 => e1 = e2
  | OutOfFuel, OutOfFuel => True
  | _, _ => False
  end.


(** "principal_paid + principal_remaining == original_amount at every
    snapshot", with Python's [==]. *)
Definition principal_sum_claim : Prop :=
  ∀ loan exits budget0 payments0 fuel evals i e,
    LoanCalc loan exits budget0 payments0 fuel = Ok evals →
    evals !! i = Some e →
    feq (LoanEval.principal_paid e + LoanEval.principal_remaining e)
      (Loan.amount loan).

(** The overflow of a month in the words of the specification: the
    percentage when it is set, otherwise [min] with the fixed amount when
    that is set. *)
Definition overflow_as_stated (s : state) : float :=
  match Budget.overflow_principal_percent (budget s) with
  | Some percent => monthly_savings s * (percent / fl 100)
  | None =>
      match Budget.overflow_principal_abs (budget s) with
      | Some a => float_min (monthly_savings s) a
      | None => 0
      end
  end.

Definition overflow_claim : Prop :=
  ∀ loan exits budget0 payments0 n s0 s s1 s2,
    init loan exits budget0 payments0 = Ok s0 →
    after_months loan exits n s0 = Ok s →
    check_exit loan exits s = Ok s1 →
    apply_lump_sum s1 = Ok s2 →
    let s3 := apply_savings s2 in
    budget_savings (pay_month s3) = budget_savings s3 + overflow_as_stated s3.

(** *** Store and values *)

Abbreviation heap := (gmap Store.loc Store.obj).

(** The [PrincipalPayment] value held at a location: the instance with its
    [new_loan_terms] read through. *)
Definition payment_value (h : heap) (r : Store.loc)
    : option PrincipalPayment.t :=
  match h !! r with
  | Some (Store.PaymentObj p) =>
      match Store.Payment.new_loan_terms p with
      | None =>
          Some (PrincipalPayment.mk (Store.Payment.type p)
                  (Store.Payment.amount p) (Store.Payment.time p) None)
      | Some t =>
          match h !! t with
          | Some (Store.LoanObj l) =>
              Some (PrincipalPayment.mk (Store.Payment.type p)
                      (Store.Payment.amount p) (Store.Payment.time p)
                      (Some l))
          | _ => None
          end
      end
  | _ => None
  end.

(** The values of the four arguments of a call, when they have the types
    the signature of [LoanCalc] declares. *)
Definition read_args (h : heap) (loan0 budget0 payments0 exits0 : Store.loc)
    : option (Loan.t * Budget.t * list PrincipalPayment.t * list Z) :=
  match h !! loan0, h !! budget0, h !! payments0, h !! exits0 with
  | Some (Store.LoanObj l), Some (Store.BudgetObj b),
    Some (Store.PaymentList rs), Some (Store.IntList zs) =>
      ps ← mapM (payment_value h) rs; Some (l, b, ps, zs)
  | _, _, _, _ => None
  end.

(** The value-level state that the locals and the store stand for.  [h0] is
    the store of the caller at the call: its objects are still there, and the
    working budget and payment list are not among them. *)
Record represents (h0 h : heap) (l : Loan.t) (zs : list Z)
    (v : Store.locals) (s : state) : Prop := mkRep {
  rep_sub : h0 ⊆ h;
  rep_loan : h !! Store.loan v = Some (Store.LoanObj l);
  rep_exits : h !! Store.exits v = Some (Store.IntList zs);
  rep_budget : h !! Store.budget v = Some (Store.BudgetObj (budget s));
  rep_budget_new : h0 !! Store.budget v = None;
  rep_payments : ∃ rs,
    h !! Store.payments v = Some (Store.PaymentList rs)
    ∧ Forall2 (λ r p, payment_value h0 r = Some p) rs (payments s);
  rep_payments_new : h0 !! Store.payments v = None;
  rep_next :
    match Store.next_lump_sum v, next_lump_sum s with
    | Some r, Some p => payment_value h0 r = Some p
    | None, None => True
    | _, _ => False
    end;
  rep_monthly_payment : Store.monthly_payment v = monthly_payment s;
  rep_remaining_principal :
    Store.remaining_principal v = remaining_principal s;
  rep_terms_paid : Store.terms_paid v = terms_paid s;
  rep_monthly_int : Store.monthly_int v = monthly_int s;
  rep_monthly_var_int : Store.monthly_var_int v = monthly_var_int s;
  rep_fixed_period : Store.fixed_period v = fixed_period s;
  rep_budget_savings : Store.budget_savings v = budget_savings s;
  rep_current_exit : Store.current_exit v = current_exit s;
  rep_last_exit : Store.last_exit v = last_exit s;
  rep_interest_paid : Store.interest_paid v = interest_paid s;
  rep_loan_evals : Store.loan_evals v = loan_evals s
}.

(** A store computation [m] run from [h] does what the value-level
    computation [o] does, keeps the caller's objects, and on success
    establishes [R]. *)
Definition simulates {A B : Type} (h0 h : heap) (R : heap → A → B → Prop)
    (m : Store.M A) (o : outcome B) : Prop :=
  match m h, o with
  | (Ok a, h'), Ok b => h0 ⊆ h' ∧ R h' a b
  | (Raise e, h'), Raise e' => e = e' ∧ h0 ⊆ h'
  | (OutOfFuel, h'), OutOfFuel => h0 ⊆ h'
  | _, _ => False
  end.

(** *** Small concrete inputs

    A three-month loan at 100% a month, so that the payment formula gives
    whole numbers (7 * 1 * 8 / 7 = 8) and the loan is paid off after exactly
    three payments. *)

Definition ex_loan : Loan.t :=
  Loan.mk (Some "three months"%string) (fl 7) (fl 1200) 3 3 None.

Definition ex_loan_zero_rate : Loan.t :=
  Loan.mk None (fl 7) 0 3 3 None.

(** Two years of 100% a month would be 1024 months of doubling. *)
Definition ex_loan_long : Loan.t :=
  Loan.mk None (fl 7) (fl 1200) 1024 1024 None.

(** An annual rate of [2 ** -60] percent. *)
Definition ex_loan_tiny_rate : Loan.t :=
  Loan.mk None (fl 7) 0x1p-60 3 3 None.

(** A loan of 100 at 12% a year over two months, fixed for one month, with
    no variable rate given. *)
Definition ex_loan_rounding : Loan.t :=
  Loan.mk None (fl 100) (fl 12) 2 1 None.

(** The same loan with a fixed period of two months and a variable rate of
    200% a month. *)
Definition ex_arm : Loan.t :=
  Loan.mk (Some "arm"%string) (fl 7) (fl 1200) 3 2 (Some (fl 2400)).

(** No overflow; the yearly raise falls on the second month. *)
Definition ex_budget : Budget.t :=
  Budget.mk None (fl 20) (fl 10) (fl 2) (fl 50) (fl 1) (fl 5) 10 None None.

(** Half of the monthly leftover of 9 is saved, and paid in above 5. *)
Definition ex_budget_percent : Budget.t :=
  Budget.mk None (fl 20) 0 (fl 2) 0 (fl 1) (fl 5) 0 (Some (fl 50)) None.

(** A fixed overflow of 3 a month. *)
Definition ex_budget_abs : Budget.t :=
  Budget.mk None (fl 20) 0 (fl 2) 0 (fl 1) (fl 5) 0 None (Some (fl 3)).

(** An income below the costs, with a fixed overflow of [0.0]. *)
Definition ex_budget_abs0 : Budget.t :=
  Budget.mk None (fl 5) 0 (fl 2) 0 (fl 1) (fl 5) 0 None (Some 0).

(** A reamortization at month 1 to a new three-month term whose fixed
    period is five months. *)
Definition ex_reamortizing : PrincipalPayment.t :=
  PrincipalPayment.mk REAMORTIZING 0 1
    (Some (Loan.mk None 0 (fl 1200) 3 5 (Some (fl 2400)))).

(** A caller's store: the loan at 1, the budget at 2, a reamortizing payment
    at 3 whose new terms are the loan object itself, the payment list at 4,
    the exits at 5. *)
Definition ex_heap : heap :=
  <[1%positive:=Store.LoanObj ex_arm]>
  (<[2%positive:=Store.BudgetObj ex_budget]>
  (<[3%positive:=Store.PaymentObj
       (Store.Payment.mk REAMORTIZING 0 1 (Some 1%positive))]>
  (<[4%positive:=Store.PaymentList [3%positive]]>
  (<[5%positive:=Store.IntList [2%Z]]> ∅)))).

(** ** Notions used in the further properties *)

(** The exit cursor is within [exits], and [last_exit] says whether it is at
    the end. *)
Definition cursor_wf (exits : list Z) (s : state) : Prop :=
  (current_exit s ≤ length exits)%nat
  ∧ last_exit s = bool_decide (current_exit s = length exits).

(** The last entry of a result. *)
Definition payoff (o : outcome (list LoanEval.t))
    : outcome (option LoanEval.t) :=
  evals ← o; Ok (last evals).

(** Two sets of locals that differ at most in the exit cursor and the
    snapshots taken so far. *)
Definition same_loan_state (s t : state) : Prop :=
  budget s = budget t ∧ payments s = payments t
  ∧ monthly_payment s = monthly_payment t
  ∧ remaining_principal s = remaining_principal t
  ∧ terms_paid s = terms_paid t
  ∧ monthly_int s = monthly_int t
  ∧ monthly_var_int s = monthly_var_int t
  ∧ fixed_period s = fixed_period t
  ∧ next_lump_sum s = next_lump_sum t
  ∧ budget_savings s = budget_savings t
  ∧ interest_paid s = interest_paid t.

Definition all_direct (ps : list PrincipalPayment.t) : Prop :=
  Forall (λ p, PrincipalPayment.type p = DIRECT) ps.

(** What was emitted, for any [exits]: a prefix of [exits], in strictly
    ascending order, every month of it in the past. *)
Definition emitted_ok (exits : list Z) (s : state) : Prop :=
  cursor_wf exits s
  ∧ LoanEval.length <$> loan_evals s = take (current_exit s) exits
  ∧ StronglySorted Z.lt (LoanEval.length <$> loan_evals s)
  ∧ Forall (λ e, (e < terms_paid s)%Z) (LoanEval.length <$> loan_evals s).

Definition exits_rel (exits1 exits2 : list Z) (s t : state) : Prop :=
  same_loan_state s t ∧ cursor_wf exits1 s ∧ cursor_wf exits2 t.

(** With only DIRECT payments pending, the payment and the rates are the
    ones of the loan passed in. *)
Definition direct_inv (loan : Loan.t) (m : float) (s : state) : Prop :=
  (∀ p, next_lump_sum s = Some p → PrincipalPayment.type p = DIRECT)
  ∧ all_direct (payments s)
  ∧ monthly_payment s = m
  ∧ monthly_int s = Loan.rate loan / (fl 12 * fl 100)
  ∧ monthly_var_int s = monthly_var_rate (Loan.var_rate loan)
  ∧ fixed_period s = Loan.fixed_period loan
  ∧ Forall (λ e, LoanEval.monthly_payments e = m) (loan_evals s).

(** The number of yearly raises in the first [n] months of a budget that
    started [offset] months into the year. *)
Definition raises (offset n : Z) : nat :=
  Z.to_nat ((n + offset) / 12 - offset / 12).

(** [x] multiplied [k] times in succession by [f], as [k] executions of
    [x *= f] leave it: every product is rounded. *)
Definition compound (x f : float) (k : nat) : float :=
  Nat.iter k (λ y, y * f) x.

(** The working budget after the months paid so far: its rates and offset
    are the caller's, and income and expenses have been multiplied by their
    factor once for each December passed. *)
Definition growth_inv (budget0 : Budget.t) (s : state) : Prop :=
  (0 ≤ terms_paid s)%Z
  ∧ Budget.month_offset (budget s) = Budget.month_offset budget0
  ∧ Budget.salary_rate_increase (budget s)
    = Budget.salary_rate_increase budget0
  ∧ Budget.expenses_rate_increase (budget s)
    = Budget.expenses_rate_increase budget0
  ∧ Budget.monthly_income (budget s)
    = compound (Budget.monthly_income budget0)
        (1 + Budget.salary_rate_increase budget0 / fl 100)
        (raises (Budget.month_offset budget0) (terms_paid s))
  ∧ Budget.monthly_expenses (budget s)
    = compound (Budget.monthly_expenses budget0)
        (1 + Budget.expenses_rate_increase budget0 / fl 100)
        (raises (Budget.month_offset budget0) (terms_paid s)).

(** The payments not yet applied, in the order of the caller's list: the
    pending one, then the stack read from its end. *)
Definition pending (s : state) : list PrincipalPayment.t :=
  option_list (next_lump_sum s) ++ reverse (payments s).

(** No pending payment means an empty stack. *)
Definition queue_wf (s : state) : Prop :=
  next_lump_sum s = None → payments s = [].

(** [s] and [t] run the same loan; [s] has the payments of [t] pending and,
    behind them, [p :: rest], where [p] is due no later than the payment
    before it, or before month [terms_paid s + c] when there is none. *)
Definition stale_rel (p : PrincipalPayment.t)
    (rest : list PrincipalPayment.t) (c : Z) (s t : state) : Prop :=
  budget s = budget t
  ∧ monthly_payment s = monthly_payment t
  ∧ remaining_principal s = remaining_principal t
  ∧ terms_paid s = terms_paid t
  ∧ monthly_int s = monthly_int t
  ∧ monthly_var_int s = monthly_var_int t
  ∧ fixed_period s = fixed_period t
  ∧ budget_savings s = budget_savings t
  ∧ current_exit s = current_exit t
  ∧ last_exit s = last_exit t
  ∧ interest_paid s = interest_paid t
  ∧ loan_evals s = loan_evals t
  ∧ queue_wf s ∧ queue_wf t
  ∧ pending s = pending t ++ p :: rest
  ∧ (pending t = [] → (PrincipalPayment.time p < terms_paid s + c)%Z)
  ∧ (∀ p1, last (pending t) = Some p1 →
       (PrincipalPayment.time p ≤ PrincipalPayment.time p1)%Z).

(** A REAMORTIZING payment whose [new_loan_terms] was left at [None]. *)
Definition missing_terms (p : PrincipalPayment.t) : bool :=
  bool_decide (PrincipalPayment.type p = REAMORTIZING)
  && match PrincipalPayment.new_loan_terms p with
     | None => true
     | Some _ => false
     end.

(** No payment still to come lacks its terms. *)
Definition terms_inv (s : state) : Prop :=
  Forall (λ p, missing_terms p = false) (payments s)
  ∧ (∀ p, next_lump_sum s = Some p → missing_terms p = false).

(** The locals of the month [n], with the principal still owed. *)
Definition at_month (loan : Loan.t) (exits : list Z) (s0 : state) (n : nat)
    (s : state) : Prop :=
  after_months loan exits n s0 = Ok s ∧ 0 < remaining_principal s.

(** Every snapshot of [evals] shows the principal of its month in the run
    from [s0]. *)
Definition evals_on_schedule (loan : Loan.t) (exits : list Z) (s0 : state)
    (evals : list LoanEval.t) : Prop :=
  Forall (λ ev, ∃ s,
    after_months loan exits (Z.to_nat (LoanEval.length ev)) s0 = Ok s
    ∧ LoanEval.principal_remaining ev = remaining_principal s
    ∧ LoanEval.interest_paid ev = interest_paid s
    ∧ LoanEval.monthly_payments ev = monthly_payment s) evals.

(** [s] waits for the payment [p], due in a later month; [t] has no payment
    to wait for. *)
Definition waiting_rel (p : PrincipalPayment.t) (s t : state) : Prop :=
  budget s = budget t
  ∧ monthly_payment s = monthly_payment t
  ∧ remaining_principal s = remaining_principal t
  ∧ terms_paid s = terms_paid t
  ∧ monthly_int s = monthly_int t
  ∧ monthly_var_int s = monthly_var_int t
  ∧ fixed_period s = fixed_period t
  ∧ budget_savings s = budget_savings t
  ∧ current_exit s = current_exit t
  ∧ last_exit s = last_exit t
  ∧ interest_paid s = interest_paid t
  ∧ loan_evals s = loan_evals t
  ∧ next_lump_sum s = Some p
  ∧ next_lump_sum t = None.

(** What the loop reads of the new terms of a reamortization: the rate, the
    term and the variable rate. *)
Definition same_read_terms (a b : option Loan.t) : Prop :=
  match a, b with
  | Some a, Some b =>
      Loan.rate a = Loan.rate b ∧ Loan.term a = Loan.term b
      ∧ Loan.var_rate a = Loan.var_rate b
  | None, None => True
  | _, _ => False
  end.

(** Two payments that differ at most in what the loop does not read: the
    new terms of a DIRECT payment, and the name, the amount and the fixed
    period of the new terms of a REAMORTIZING one. *)
Definition same_payment (p q : PrincipalPayment.t) : Prop :=
  PrincipalPayment.type p = PrincipalPayment.type q
  ∧ PrincipalPayment.amount p = PrincipalPayment.amount q
  ∧ PrincipalPayment.time p = PrincipalPayment.time q
  ∧ (PrincipalPayment.type p = REAMORTIZING →
     same_read_terms (PrincipalPayment.new_loan_terms p)
       (PrincipalPayment.new_loan_terms q)).

(** Locals that agree up to such differences in the payments to come. *)
Definition payments_rel (s t : state) : Prop :=
  budget s = budget t
  ∧ monthly_payment s = monthly_payment t
  ∧ remaining_principal s = remaining_principal t
  ∧ terms_paid s = terms_paid t
  ∧ monthly_int s = monthly_int t
  ∧ monthly_var_int s = monthly_var_int t
  ∧ fixed_period s = fixed_period t
  ∧ budget_savings s = budget_savings t
  ∧ current_exit s = current_exit t
  ∧ last_exit s = last_exit t
  ∧ interest_paid s = interest_paid t
  ∧ loan_evals s = loan_evals t
  ∧ Forall2 same_payment (payments s) (payments t)
  ∧ option_Forall2 same_payment (next_lump_sum s) (next_lump_sum t).

(** Further examples.  A loan with no months to run. *)
Definition ex_loan_zero_term : Loan.t :=
  Loan.mk None (fl 7) (fl 1200) 0 0 None.

(** A loan of nothing. *)
Definition ex_loan_paid : Loan.t :=
  Loan.mk (Some "paid"%string) 0 (fl 1200) 3 3 None.

(** A direct payment of 2 at month 1, a second one for the same month, and
    a reamortization at month 1 that gives no terms. *)
Definition ex_direct : PrincipalPayment.t :=
  PrincipalPayment.mk DIRECT (fl 2) 1 None.

Definition ex_same_month : PrincipalPayment.t :=
  PrincipalPayment.mk DIRECT (fl 1) 1 None.

Definition ex_no_terms : PrincipalPayment.t :=
  PrincipalPayment.mk REAMORTIZING 0 1 None.

(** The reamortization [ex_reamortizing] with another name, amount and
    fixed period in its new terms. *)
Definition ex_reamortizing_other : PrincipalPayment.t :=
  PrincipalPayment.mk REAMORTIZING 0 1
    (Some (Loan.mk (Some "other"%string) (fl 1000) (fl 1200) 3 0
             (Some (fl 2400)))).

(** * Properties *)

(** ** The result monad *)

Lemma bind_Ok {A B} (a : A) (k : A → outcome B) : (Ok a ≫= k) = k a.
Proof. reflexivity. Qed.

Lemma bind_Ok_inv {A B} (m : outcome A) (k : A → outcome B) b :
  m ≫= k = Ok b → ∃ a, m = Ok a ∧ k a = Ok b.
Proof. destruct m; [eauto|done|done]. Qed.

Ltac inv_bind H :=
  let a := fresh "a" in
  let Ha := fresh "Ha" in
  apply bind_Ok_inv in H as (a & Ha & H).

(** ** Floats *)

(** The few facts about binary64 arithmetic that the properties rest on,
    each by cases on the operands. *)

Lemma float_sub_0_r (x : float) : x - 0 = x.
Proof.
  apply Prim2SF_inj. rewrite sub_spec.
  change (Prim2SF 0) with (S754_zero false).
  destruct (Prim2SF x) as [[]| [] | | [] m e]; reflexivity.
Qed.

Lemma feq_0_cases (x : float) : feq x 0 → x = 0 ∨ x = - 0.
Proof.
  unfold feq. rewrite FloatAxioms.eqb_spec.
  change (Prim2SF 0) with (S754_zero false). intros H.
  assert (Hx : Prim2SF x = S754_zero false ∨ Prim2SF x = S754_zero true).
  { destruct (Prim2SF x) as [[]| [] | | [] m e]; try discriminate; auto. }
  destruct Hx as [Hx | Hx]; [left | right]; apply Prim2SF_inj; by rewrite Hx.
Qed.

Lemma float_mul_0_cases (y z : float) :
  feq z 0 → y * z = 0 ∨ y * z = - 0 ∨ y * z = nan.
Proof.
  intros Hz.
  assert (H : Prim2SF (y * z) = S754_zero false
              ∨ Prim2SF (y * z) = S754_zero true
              ∨ Prim2SF (y * z) = S754_nan).
  { rewrite mul_spec.
    destruct (feq_0_cases z Hz) as [-> | ->];
      [change (Prim2SF 0) with (S754_zero false)
      |change (Prim2SF (- 0)) with (S754_zero true)];
      destruct (Prim2SF y) as [[]| [] | | [] m e]; simpl; auto. }
  destruct H as [H|[H|H]]; [left|right; left|right; right];
    apply Prim2SF_inj; by rewrite H.
Qed.

Lemma fle_0_not_flt (x : float) : x ≤ 0 → ¬ 0 < x.
Proof.
  unfold fle, flt. rewrite leb_spec, ltb_spec.
  change (Prim2SF 0) with (S754_zero false).
  by destruct (Prim2SF x) as [[]| [] | | [] m e].
Qed.

Lemma float_sub_diag_nonpos (x : float) :
  x ≤ 0 → x - x = if is_infinity x then nan else 0.
Proof.
  unfold fle, is_infinity.
  rewrite leb_spec, FloatAxioms.eqb_spec, abs_spec. intros Hle.
  apply Prim2SF_inj. rewrite sub_spec.
  change (Prim2SF infinity) with (S754_infinity false).
  change (Prim2SF 0) with (S754_zero false) in Hle.
  destruct (Prim2SF x) as [[]| [] | | s m e]; try done.
  cbn [SFabs SFeqb SFcompare]. change (Prim2SF 0) with (S754_zero false).
  unfold SF64sub, SFsub. by rewrite Z.min_id, Z.sub_diag.
Qed.

Lemma float_add_nan_l (x : float) : nan + x = nan.
Proof.
  apply Prim2SF_inj. rewrite add_spec.
  change (Prim2SF nan) with S754_nan. reflexivity.
Qed.

Lemma float_ltb_nan_r (x : float) : (x <? nan) = false.
Proof.
  rewrite ltb_spec. change (Prim2SF nan) with S754_nan.
  unfold SFltb, SFcompare. by destruct (Prim2SF x) as [[]| [] | | [] m e].
Qed.

(** ** GetMonthlyPayment *)

Lemma math_pow_0 x : math_pow x 0 = Ok 1.
Proof. reflexivity. Qed.

Lemma math_pow_1 y : math_pow 1 y = (_ ← float_of_int y; Ok 1).
Proof.
  unfold math_pow. destruct (float_of_int y) as [yf| |]; simpl; try done.
  by case_bool_decide.
Qed.

Lemma math_pow_raise x y e :
  math_pow x y = Raise e → e = ValueError ∨ e = OverflowError.
Proof.
  unfold math_pow, float_of_int.
  destruct (is_infinity (fl y)); simpl; [intros [= <-]; auto|].
  repeat (case_bool_decide || destruct (is_nan _) || destruct (is_infinity _)
          || destruct (_ <? _)%Z);
    intros; simplify_eq; auto.
Qed.

(** C9.  [GetMonthlyPayment] is a function of the loan alone.  With
    [i = rate / 1200]: when the rate is [0.0] (and the term converts to a
    float) the divisor [math.pow(1 + i, term) - 1] is zero and the call
    raises [ZeroDivisionError], there is no special case; an exception of
    [math.pow] is passed on; and when [math.pow(1 + i, term)] returns [p],
    the call raises [ZeroDivisionError] if [p - 1 == 0.0] and returns
    [amount * (i * p / (p - 1))] otherwise. *)
Theorem GetMonthlyPayment_spec (loan : Loan.t) :
  let i := Loan.rate loan / (fl 12 * fl 100) in
  (∀ t, feq (Loan.rate loan) 0 → float_of_int (Loan.term loan) = Ok t →
     GetMonthlyPayment loan = Raise ZeroDivisionError)
  ∧ (∀ e, math_pow (1 + i) (Loan.term loan) = Raise e →
       GetMonthlyPayment loan = Raise e)
  ∧ (∀ p, math_pow (1 + i) (Loan.term loan) = Ok p →
       (feq (p - 1) 0 → GetMonthlyPayment loan = Raise ZeroDivisionError)
       ∧ (¬ feq (p - 1) 0 →
          GetMonthlyPayment loan
          = Ok (Loan.amount loan * (i * p / (p - 1))))).
Proof.
  intros i; split_and!.
  - intros t Hr Ht. unfold GetMonthlyPayment.
    assert (H1 : 1 + Loan.rate loan / (fl 12 * fl 100) = 1).
    { by destruct (feq_0_cases _ Hr) as [-> | ->]. }
    by rewrite H1, math_pow_1, Ht.
  - intros e He. unfold GetMonthlyPayment. fold i. by rewrite He.
  - intros p Hp. unfold GetMonthlyPayment. fold i. rewrite Hp, !bind_Ok.
    unfold float_div. split; intros Hz.
    + by rewrite bool_decide_eq_true_2.
    + by rewrite bool_decide_eq_false_2.
Qed.

(** ** The blocks of the loop body *)

Section Steps.
Variable loan : Loan.t.
Variable exits : list Z.

Lemma check_exit_frame s s' :
  check_exit loan exits s = Ok s' →
  budget s' = budget s ∧ payments s' = payments s
  ∧ monthly_payment s' = monthly_payment s
  ∧ remaining_principal s' = remaining_principal s
  ∧ terms_paid s' = terms_paid s
  ∧ monthly_int s' = monthly_int s
  ∧ monthly_var_int s' = monthly_var_int s
  ∧ fixed_period s' = fixed_period s
  ∧ next_lump_sum s' = next_lump_sum s
  ∧ budget_savings s' = budget_savings s
  ∧ interest_paid s' = interest_paid s.
Proof.
  unfold check_exit. intros H.
  destruct (last_exit s); simpl in H; [by simplify_eq|].
  inv_bind H. case_bool_decide; by simplify_eq.
Qed.

Lemma apply_lump_sum_frame s s' :
  apply_lump_sum s = Ok s' →
  budget s' = budget s ∧ terms_paid s' = terms_paid s
  ∧ fixed_period s' = fixed_period s
  ∧ budget_savings s' = budget_savings s
  ∧ current_exit s' = current_exit s ∧ last_exit s' = last_exit s
  ∧ interest_paid s' = interest_paid s
  ∧ loan_evals s' = loan_evals s.
Proof.
  unfold apply_lump_sum. intros H.
  destruct (next_lump_sum s) as [lump|]; [|by simplify_eq].
  case_bool_decide; [|by simplify_eq].
  inv_bind H. destruct a as [[mp mi] mv]. inv_bind H. destruct a as [nx rs].
  by simplify_eq.
Qed.


Lemma month_inv s s' :
  month loan exits s = Ok s' →
  ∃ s1 s2, check_exit loan exits s = Ok s1 ∧ apply_lump_sum s1 = Ok s2
    ∧ s' = update_budget (pay_month (apply_savings s2)).
Proof.
  unfold month. intros H. inv_bind H. inv_bind H. simplify_eq. eauto.
Qed.

Lemma apply_savings_budget s : budget (apply_savings s) = budget s.
Proof. unfold apply_savings. by case_bool_decide. Qed.

Lemma apply_savings_frame s :
  let s' := apply_savings s in
  budget s' = budget s ∧ payments s' = payments s
  ∧ monthly_payment s' = monthly_payment s
  ∧ terms_paid s' = terms_paid s
  ∧ monthly_int s' = monthly_int s
  ∧ monthly_var_int s' = monthly_var_int s
  ∧ fixed_period s' = fixed_period s
  ∧ next_lump_sum s' = next_lump_sum s
  ∧ current_exit s' = current_exit s ∧ last_exit s' = last_exit s
  ∧ interest_paid s' = interest_paid s
  ∧ loan_evals s' = loan_evals s.
Proof. unfold apply_savings. by case_bool_decide. Qed.

Lemma update_budget_frame s :
  let s' := update_budget s in
  payments s' = payments s
  ∧ monthly_payment s' = monthly_payment s
  ∧ remaining_principal s' = remaining_principal s
  ∧ terms_paid s' = terms_paid s
  ∧ monthly_int s' = monthly_int s
  ∧ monthly_var_int s' = monthly_var_int s
  ∧ fixed_period s' = fixed_period s
  ∧ next_lump_sum s' = next_lump_sum s
  ∧ budget_savings s' = budget_savings s
  ∧ current_exit s' = current_exit s ∧ last_exit s' = last_exit s
  ∧ interest_paid s' = interest_paid s
  ∧ loan_evals s' = loan_evals s.
Proof. unfold update_budget. by case_bool_decide. Qed.

Lemma month_before_sweep s s' :
  month loan exits s = Ok s' →
  ∃ t, before_sweep loan exits s = Ok t
    ∧ budget_savings t = budget_savings s
    ∧ interest_paid t = interest_paid s
    ∧ s' = update_budget (pay_month (apply_savings t)).
Proof.
  intros (s1 & s2 & H1 & H2 & ->)%month_inv. exists s2.
  unfold before_sweep. rewrite H1, bind_Ok. split; [done|].
  apply check_exit_frame in H1 as (_&_&_&_&_&_&_&_&_& Hs1 & Hi1).
  apply apply_lump_sum_frame in H2 as (_&_&_& Hs2 &_&_& Hi2 &_).
  split_and!; [congruence|congruence|done].
Qed.

(** C6.  In every month, at the sweep step (after the exit check and the
    lump sum): when [budget_savings] exceeds [budget.min_principal_payment],
    the savings are subtracted from the remaining principal and reset to 0
    before the interest of the month is computed, so the interest of the
    month is [monthly_int] times the reduced principal, and the month ends
    with the principal and the interest paid computed from the reduced
    principal; when the savings do not exceed the threshold, the step
    changes nothing and the month is computed from the principal as it
    was. *)
Theorem savings_sweep (s s' : state) :
  month loan exits s = Ok s' →
  ∃ t, before_sweep loan exits s = Ok t
    ∧ budget_savings t = budget_savings s
    ∧ (Budget.min_principal_payment (budget t) < budget_savings t →
       let reduced := remaining_principal t - budget_savings t in
       remaining_principal (apply_savings t) = reduced
       ∧ budget_savings (apply_savings t) = 0
       ∧ interest (apply_savings t) = monthly_int t * reduced
       ∧ remaining_principal s'
         = reduced - (monthly_payment t - monthly_int t * reduced)
       ∧ interest_paid s'
         = if past_fixed t
           then interest_paid t + monthly_int t * reduced
                + (monthly_var_int t - monthly_int t) * reduced
           else interest_paid t + monthly_int t * reduced)
    ∧ (¬ Budget.min_principal_payment (budget t) < budget_savings t →
       apply_savings t = t
       ∧ remaining_principal s'
         = remaining_principal t
           - (monthly_payment t - monthly_int t * remaining_principal t)
       ∧ interest_paid s'
         = if past_fixed t
           then interest_paid t + monthly_int t * remaining_principal t
                + (monthly_var_int t - monthly_int t) * remaining_principal t
           else interest_paid t + monthly_int t * remaining_principal t).
Proof.
  intros (t & Ht & Hs & _ & ->)%month_before_sweep. exists t.
  split; [done|]. split; [done|].
  destruct (update_budget_frame (pay_month (apply_savings t)))
    as (_&_& -> &_&_&_&_&_&_&_&_& -> &_).
  unfold apply_savings. split; intros Hsw.
  - rewrite bool_decide_eq_true_2 by done.
    unfold pay_month, past_fixed, interest, extra_interest; simpl.
    by split_and!.
  - rewrite bool_decide_eq_false_2 by done.
    unfold pay_month, past_fixed, interest, extra_interest; simpl.
    by split_and!.
Qed.

(** C7, as amended.  In every month, after the principal update, with the
    locals as they are after the sweep: when [overflow_principal_percent] is
    set, [budget_savings] becomes [budget_savings + leftover * (percent /
    100)], whatever [overflow_principal_abs] is; otherwise, when
    [overflow_principal_abs] is set to an amount that is not [0.0], it
    becomes [budget_savings + min(leftover, overflow_principal_abs)];
    otherwise (the amount unset or [0.0]) it does not change.  The leftover
    is the one of line 184, less the surcharge past the fixed period; the
    sum is stored as it is. *)
Theorem overflow_accumulation (s s' : state) :
  month loan exits s = Ok s' →
  ∃ t, before_sweep loan exits s = Ok t ∧
    let u := apply_savings t in
    let b := budget u in
    let leftover := monthly_savings u in
    (∀ percent, Budget.overflow_principal_percent b = Some percent →
       budget_savings s' = budget_savings u + leftover * (percent / fl 100))
    ∧ (Budget.overflow_principal_percent b = None →
       ∀ a, Budget.overflow_principal_abs b = Some a → ¬ feq a 0 →
       budget_savings s' = budget_savings u + float_min leftover a)
    ∧ (Budget.overflow_principal_percent b = None →
       Budget.overflow_principal_abs b = None
       ∨ (∃ a, Budget.overflow_principal_abs b = Some a ∧ feq a 0) →
       budget_savings s' = budget_savings u).
Proof.
  intros (t & Ht & _ & _ & ->)%month_before_sweep. exists t.
  split; [done|]. intros u b leftover. subst u b leftover.
  destruct (update_budget_frame (pay_month (apply_savings t)))
    as (_&_&_&_&_&_&_&_& -> &_).
  unfold pay_month, overflow; cbn [budget_savings]. split_and!.
  - by intros percent ->.
  - intros -> a -> Ha. unfold truthy. by rewrite bool_decide_eq_false_2.
  - intros -> [-> | (a & -> & Ha)]; [done|].
    unfold truthy. by rewrite bool_decide_eq_true_2.
Qed.

Lemma pay_month_frame s :
  let s' := pay_month s in
  budget s' = budget s ∧ payments s' = payments s
  ∧ monthly_payment s' = monthly_payment s
  ∧ terms_paid s' = (terms_paid s + 1)%Z
  ∧ monthly_int s' = monthly_int s
  ∧ monthly_var_int s' = monthly_var_int s
  ∧ fixed_period s' = fixed_period s
  ∧ next_lump_sum s' = next_lump_sum s
  ∧ current_exit s' = current_exit s ∧ last_exit s' = last_exit s
  ∧ loan_evals s' = loan_evals s.
Proof. done. Qed.

Lemma loop_rtc fuel s s' :
  loop loan exits fuel s = Ok s' →
  rtc (step loan exits) s s' ∧ ¬ 0 < remaining_principal s'.
Proof.
  revert s. induction fuel as [|fuel IH]; intros s; simpl;
    case_bool_decide as Hpos; intros H; simplify_eq; try done.
  inv_bind H. destruct (IH _ H) as [Hr Hn]. split; [|done].
  eapply rtc_l; [|done]. by split.
Qed.

Lemma rtc_invariant (P : state → Prop) s s' :
  (∀ t t', P t → step loan exits t t' → P t') →
  P s → rtc (step loan exits) s s' → P s'.
Proof. intros Hstep Hs Hr. induction Hr; eauto. Qed.

Lemma init_fields budget0 payments0 s0 :
  init loan exits budget0 payments0 = Ok s0 →
  budget s0 = budget0 ∧ remaining_principal s0 = Loan.amount loan
  ∧ terms_paid s0 = 0%Z
  ∧ monthly_int s0 = Loan.rate loan / (fl 12 * fl 100)
  ∧ monthly_var_int s0 = monthly_var_rate (Loan.var_rate loan)
  ∧ fixed_period s0 = Loan.fixed_period loan
  ∧ budget_savings s0 = 0 ∧ current_exit s0 = 0%nat
  ∧ last_exit s0 = bool_decide (exits = [])
  ∧ interest_paid s0 = 0 ∧ loan_evals s0 = [].
Proof.
  unfold init. intros H. inv_bind H. inv_bind H. destruct a0. by simplify_eq.
Qed.

Lemma month_budget s s' :
  month loan exits s = Ok s' →
  budget s' =
    if bool_decide
         ((terms_paid s + 1 + Budget.month_offset (budget s)) `mod` 12 = 0)%Z
    then
      Budget.set_monthly_expenses
        (Budget.monthly_expenses (budget s)
         * (1 + Budget.expenses_rate_increase (budget s) / fl 100))
        (Budget.set_monthly_income
           (Budget.monthly_income (budget s)
            * (1 + Budget.salary_rate_increase (budget s) / fl 100))
           (budget s))
    else budget s.
Proof.
  intros (s1 & s2 & H1 & H2 & ->)%month_inv.
  apply check_exit_frame in H1 as (Hb1 & _ & _ & _ & Ht1 & _).
  apply apply_lump_sum_frame in H2 as (Hb2 & Ht2 & _).
  destruct (apply_savings_frame s2) as (Hb3 & _ & _ & Ht3 & _).
  unfold update_budget. cbn [pay_month budget terms_paid].
  rewrite Hb3, Hb2, Hb1, Ht3, Ht2, Ht1.
  case_bool_decide; simpl; by rewrite ?Hb3, ?Hb2, ?Hb1.
Qed.

(** C10.  Throughout a run, [monthly_prop_tax], [min_principal_payment],
    [overflow_principal_percent] and [overflow_principal_abs] of the working
    budget stay what they were in the budget passed in.  A month changes the
    budget only when [(terms_paid + 1 + month_offset) % 12 = 0], and then
    only by multiplying [monthly_income] by [1 + salary_rate_increase / 100]
    and [monthly_expenses] by [1 + expenses_rate_increase / 100]. *)
Theorem budget_frame budget0 payments0 s0 s :
  init loan exits budget0 payments0 = Ok s0 →
  rtc (step loan exits) s0 s →
  (Budget.monthly_prop_tax (budget s) = Budget.monthly_prop_tax budget0
   ∧ Budget.min_principal_payment (budget s)
     = Budget.min_principal_payment budget0
   ∧ Budget.overflow_principal_percent (budget s)
     = Budget.overflow_principal_percent budget0
   ∧ Budget.overflow_principal_abs (budget s)
     = Budget.overflow_principal_abs budget0)
  ∧ ∀ s', step loan exits s s' →
      let b := budget s in
      let b' := budget s' in
      let due :=
        ((terms_paid s + 1 + Budget.month_offset b) `mod` 12 = 0)%Z in
      (due →
         Budget.monthly_income b'
         = Budget.monthly_income b
           * (1 + Budget.salary_rate_increase b / fl 100)
         ∧ Budget.monthly_expenses b'
           = Budget.monthly_expenses b
             * (1 + Budget.expenses_rate_increase b / fl 100))
      ∧ (¬ due →
         Budget.monthly_income b' = Budget.monthly_income b
         ∧ Budget.monthly_expenses b' = Budget.monthly_expenses b)
      ∧ Budget.monthly_prop_tax b' = Budget.monthly_prop_tax b
      ∧ Budget.min_principal_payment b' = Budget.min_principal_payment b
      ∧ Budget.overflow_principal_percent b'
        = Budget.overflow_principal_percent b
      ∧ Budget.overflow_principal_abs b' = Budget.overflow_principal_abs b.
Proof.
  intros Hinit Hrun.
  assert (Hstep : ∀ t t', step loan exits t t' →
    (((terms_paid t + 1 + Budget.month_offset (budget t)) `mod` 12 = 0)%Z →
       Budget.monthly_income (budget t')
       = Budget.monthly_income (budget t)
         * (1 + Budget.salary_rate_increase (budget t) / fl 100)
       ∧ Budget.monthly_expenses (budget t')
         = Budget.monthly_expenses (budget t)
           * (1 + Budget.expenses_rate_increase (budget t) / fl 100))
    ∧ (¬ ((terms_paid t + 1 + Budget.month_offset (budget t)) `mod` 12 = 0)%Z →
       Budget.monthly_income (budget t') = Budget.monthly_income (budget t)
       ∧ Budget.monthly_expenses (budget t')
         = Budget.monthly_expenses (budget t))
    ∧ Budget.monthly_prop_tax (budget t')
      = Budget.monthly_prop_tax (budget t)
    ∧ Budget.min_principal_payment (budget t')
      = Budget.min_principal_payment (budget t)
    ∧ Budget.overflow_principal_percent (budget t')
      = Budget.overflow_principal_percent (budget t)
    ∧ Budget.overflow_principal_abs (budget t')
      = Budget.overflow_principal_abs (budget t)).
  { intros t t' [_ Hm]. rewrite (month_budget _ _ Hm).
    case_bool_decide; repeat split; try done. }
  split; [|intros s' Hs'; by apply Hstep].
  apply init_fields in Hinit as (<- & _).
  apply (rtc_invariant (λ t,
    Budget.monthly_prop_tax (budget t) = Budget.monthly_prop_tax (budget s0)
    ∧ Budget.min_principal_payment (budget t)
      = Budget.min_principal_payment (budget s0)
    ∧ Budget.overflow_principal_percent (budget t)
      = Budget.overflow_principal_percent (budget s0)
    ∧ Budget.overflow_principal_abs (budget t)
      = Budget.overflow_principal_abs (budget s0)) s0 s); [|done|done].
  intros t t' Hfix Ht.
  by destruct (Hstep _ _ Ht) as (_ & _ & -> & -> & -> & ->).
Qed.


Lemma after_months_rtc n s s' :
  after_months loan exits n s = Ok s' → rtc (step loan exits) s s'.
Proof.
  revert s. induction n as [|n IH]; intros s; simpl.
  - intros; by simplify_eq.
  - case_bool_decide as Hg; [|intros; by simplify_eq].
    intros H. inv_bind H. eapply rtc_l; [by split|eauto].
Qed.

Lemma loop_after_months fuel s s' :
  loop loan exits fuel s = Ok s' → after_months loan exits fuel s = Ok s'.
Proof.
  revert s. induction fuel as [|n IH]; intros s; simpl;
    case_bool_decide as Hg; try done.
  intros H. inv_bind H. rewrite Ha. simpl. eauto.
Qed.

(** More fuel does not change a result: what [LoanCalc] returns does not
    depend on the bound put on the number of iterations. *)
Lemma loop_fuel_mono fuel fuel' s s' :
  (fuel ≤ fuel')%nat →
  loop loan exits fuel s = Ok s' → loop loan exits fuel' s = Ok s'.
Proof.
  revert fuel' s. induction fuel as [|fuel IH]; intros fuel' s Hle; simpl.
  - case_bool_decide as Hg; [done|]. intros ?; simplify_eq.
    destruct fuel'; simpl; by rewrite bool_decide_eq_false_2.
  - destruct fuel' as [|fuel'']; [lia|]. simpl.
    case_bool_decide as Hg; [|done].
    intros H. inv_bind H. rewrite Ha. simpl. apply IH; [lia|done].
Qed.

Lemma LoanCalc_fuel_mono budget0 payments0 fuel fuel' evals :
  (fuel ≤ fuel')%nat →
  LoanCalc loan exits budget0 payments0 fuel = Ok evals →
  LoanCalc loan exits budget0 payments0 fuel' = Ok evals.
Proof.
  unfold LoanCalc. intros Hle H. inv_bind H. inv_bind H.
  rewrite Ha. simpl. by rewrite (loop_fuel_mono _ _ _ _ Hle Ha0).
Qed.

Lemma check_exit_cases s s' :
  check_exit loan exits s = Ok s' →
  (s' = s
   ∧ (last_exit s = true
      ∨ ∃ e, exits !! current_exit s = Some e ∧ e ≠ terms_paid s))
  ∨ (last_exit s = false
     ∧ exits !! current_exit s = Some (terms_paid s)
     ∧ current_exit s' = S (current_exit s)
     ∧ last_exit s' = bool_decide (S (current_exit s) = length exits)
     ∧ loan_evals s' = loan_evals s ++ [snapshot loan s]).
Proof.
  unfold check_exit, index. intros H.
  destruct (last_exit s); simpl in H; [left; by simplify_eq; auto|].
  destruct (exits !! current_exit s) as [e|] eqn:He; [|done].
  simpl in H. case_bool_decide; simplify_eq; [right|left]; eauto.
Qed.

Lemma month_loan_evals s s' :
  month loan exits s = Ok s' →
  loan_evals s' = loan_evals s
  ∨ loan_evals s' = loan_evals s ++ [snapshot loan s].
Proof.
  intros (s1 & s2 & H1 & H2 & ->)%month_inv.
  destruct (update_budget_frame (pay_month (apply_savings s2)))
    as (_&_&_&_&_&_&_&_&_&_&_&_& ->).
  cbn [pay_month loan_evals].
  destruct (apply_savings_frame s2) as (_&_&_&_&_&_&_&_&_&_&_& ->).
  apply apply_lump_sum_frame in H2 as (_&_&_&_&_&_&_& ->).
  apply check_exit_cases in H1 as [[-> _] | (_&_&_&_& ->)]; auto.
Qed.

(** C3, as amended.  In every [LoanEval] that [LoanCalc] returns, for an
    exit or for the payoff, [principal_paid] is the float difference
    [loan.amount - principal_remaining] for the amount of the loan passed
    in; lump sums and reamortizations do not change this.  (The sum
    [principal_paid + principal_remaining] is that amount only up to the
    rounding of the difference.) *)
Theorem principal_paid_accounting budget0 payments0 fuel evals :
  LoanCalc loan exits budget0 payments0 fuel = Ok evals →
  Forall (λ e,
    LoanEval.principal_paid e
    = Loan.amount loan - LoanEval.principal_remaining e) evals.
Proof.
  unfold LoanCalc. intros H. inv_bind H. inv_bind H. simplify_eq.
  rename a into s0, a0 into s.
  apply Forall_app. split; [|by apply Forall_singleton].
  apply loop_rtc in Ha0 as [Hrun _].
  apply (rtc_invariant (λ t, Forall _ (loan_evals t)) s0 s); [| |done].
  - intros t t' Ht [_ [-> | ->]%month_loan_evals]; [done|].
    apply Forall_app. split; [done|by apply Forall_singleton].
  - apply init_fields in Ha as (_&_&_&_&_&_&_&_&_&_& ->). constructor.
Qed.

(** The surcharge of a month past the fixed period: added to the interest
    paid, taken from the leftover, absent from the principal update. *)
Lemma surcharge_step (s : state) :
  past_fixed s = true →
  extra_interest s
  = (monthly_var_int s - monthly_int s) * remaining_principal s
  ∧ interest_paid (pay_month s)
    = interest_paid s + monthly_int s * remaining_principal s
      + extra_interest s
  ∧ monthly_savings s
    = Budget.monthly_income (budget s)
      - (Budget.monthly_expenses (budget s) + monthly_payment s
         + Budget.monthly_prop_tax (budget s))
      - extra_interest s
  ∧ remaining_principal (pay_month s)
    = remaining_principal s
      - (monthly_payment s - monthly_int s * remaining_principal s).
Proof.
  intros Hpast. unfold pay_month, monthly_savings; simpl.
  rewrite Hpast. done.
Qed.


End Steps.

(** ** Exits and the payoff entry *)

Section Exits.
Variable loan : Loan.t.
Variable exits : list Z.
Hypothesis Hasc : strictly_ascending exits.

Lemma month_cursor s s' :
  month loan exits s = Ok s' →
  terms_paid s' = (terms_paid s + 1)%Z
  ∧ (current_exit s' = current_exit s ∧ last_exit s' = last_exit s
     ∧ loan_evals s' = loan_evals s
     ∧ (last_exit s = true ∨ ∃ e, exits !! current_exit s = Some e ∧ e ≠ terms_paid s)
     ∨ last_exit s = false
       ∧ exits !! current_exit s = Some (terms_paid s)
       ∧ current_exit s' = S (current_exit s)
       ∧ last_exit s' = bool_decide (S (current_exit s) = length exits)
       ∧ loan_evals s' = loan_evals s ++ [snapshot loan s]).
Proof.
  intros (s1 & s2 & H1 & H2 & ->)%month_inv.
  destruct (update_budget_frame (pay_month (apply_savings s2)))
    as (_&_&_& -> &_&_&_&_&_& -> & -> &_& ->).
  cbn [pay_month loan_evals terms_paid current_exit last_exit].
  destruct (apply_savings_frame s2) as (_&_&_& -> &_&_&_&_& -> & -> &_& ->).
  apply apply_lump_sum_frame in H2 as (_& -> &_&_& -> & -> &_& ->).
  pose proof (check_exit_frame _ _ _ _ H1) as (_&_&_&_& -> &_).
  split; [done|].
  apply check_exit_cases in H1 as [[-> ?] | ?]; [left|by right]. done.
Qed.



Lemma cursor_ok_month s s' :
  cursor_ok exits s → month loan exits s = Ok s' → cursor_ok exits s'.
Proof.
  intros (Hk & Hlast & Hev & Hpast & Hpend & Ht) Hm.
  apply month_cursor in Hm
    as (Ht' & [(Hk' & Hl' & He' & Hno) | (Hl & Hex & Hk' & Hl' & He')]).
  - unfold cursor_ok. rewrite Ht', Hk', Hl', He'. split_and!; try done.
    + intros e He. apply Hpast in He. lia.
    + intros e He. destruct Hno as [Hno | (e' & He2 & Hne)].
      * rewrite Hlast in Hno. apply bool_decide_eq_true in Hno.
        apply lookup_lt_Some in He. lia.
      * rewrite He in He2. simplify_eq. destruct (Hpend _ He); lia.
    + lia.
  - assert (Hlt : (current_exit s < length exits)%nat)
      by (by eapply lookup_lt_Some).
    unfold cursor_ok. rewrite Ht', Hk', Hl', He'. split_and!; try done.
    + rewrite fmap_app, Hev. simpl.
      by rewrite (take_S_r _ _ _ Hex).
    + intros e. rewrite (take_S_r _ _ _ Hex).
      intros [He | ->%list_elem_of_singleton]%elem_of_app.
      * apply Hpast in He. lia.
      * lia.
    + intros e He. left. specialize (Hasc _ _ _ Hex He). lia.
    + lia.
Qed.

Lemma cursor_ok_init budget0 payments0 s0 :
  init loan exits budget0 payments0 = Ok s0 → cursor_ok exits s0.
Proof.
  intros (_&_& Ht &_&_&_&_& Hk & Hl &_& He)%init_fields.
  unfold cursor_ok. rewrite Ht, Hk, Hl, He. split_and!; try done.
  - lia.
  - destruct exits; done.
  - intros e; rewrite take_0. by intros ?%elem_of_nil.
  - intros e _. lia.
Qed.

(** C2.  With strictly ascending [exits], a call that returns gives the
    snapshots of a prefix of [exits] followed by the payoff snapshot, which
    is always last.  Writing [T] for the payoff month, the emitted exits are
    exactly the leading ones with [0 <= e < T], the months the loop ran
    through: when all of them are, the result has [len(exits) + 1] entries
    whose lengths are [exits] followed by [T]; when one is not, the result
    has fewer entries and no such exit among them. *)
Theorem exits_then_payoff budget0 payments0 fuel evals :
  LoanCalc loan exits budget0 payments0 fuel = Ok evals →
  ∃ (emitted : list LoanEval.t) (final : LoanEval.t) (k : nat),
    let T := LoanEval.length final in
    evals = emitted ++ [final]
    ∧ ¬ 0 < LoanEval.principal_remaining final
    ∧ LoanEval.length <$> emitted = take k exits
    ∧ (∀ e, e ∈ take k exits → (0 ≤ e < T)%Z)
    ∧ (∀ e, exits !! k = Some e → ¬ (0 ≤ e < T)%Z)
    ∧ ((∀ e, e ∈ exits → (0 ≤ e < T)%Z) →
       LoanEval.length <$> evals = exits ++ [T]
       ∧ length evals = (length exits + 1)%nat)
    ∧ ((∃ e, e ∈ exits ∧ ¬ (0 ≤ e < T)%Z) →
       (length evals < length exits + 1)%nat).
Proof.
  unfold LoanCalc. intros H. inv_bind H. inv_bind H. simplify_eq.
  rename a into s0, a0 into s.
  apply cursor_ok_init in Ha.
  apply loop_rtc in Ha0 as [Hrun Hdone].
  assert (Hs : cursor_ok exits s).
  { apply (rtc_invariant loan exits (cursor_ok exits) s0 s); [|done|done].
    intros t t' Ht [_ Hm]. by eapply cursor_ok_month. }
  destruct Hs as (Hk & Hlast & Hev & Hpast & Hpend & Ht).
  exists (loan_evals s), (snapshot loan s), (current_exit s).
  cbn [snapshot LoanEval.length LoanEval.principal_remaining].
  assert (Hlen : length (loan_evals s) = current_exit s).
  { rewrite <- (length_fmap LoanEval.length), Hev, length_take. lia. }
  split_and!; try done.
  - intros e He. destruct (Hpend _ He); lia.
  - intros Hall.
    assert (Hfull : (length exits ≤ current_exit s)%nat).
    { destruct (decide (length exits ≤ current_exit s)%nat) as [|Hn]; [done|].
      destruct (lookup_lt_is_Some_2 exits (current_exit s)) as [e He]; [lia|].
      pose proof (Hall e (list_elem_of_lookup_2 _ _ _ He)).
      destruct (Hpend _ He); lia. }
    split.
    + rewrite fmap_app, Hev. simpl. f_equal. by apply take_ge.
    + rewrite length_app, Hlen. simpl. lia.
  - intros (e & He & Hne). rewrite length_app, Hlen. simpl.
    destruct (decide (current_exit s = length exits)) as [Heq|]; [|lia].
    rewrite Heq, take_ge in Hpast by lia. by apply Hpast in He.
Qed.

End Exits.

(** ** The surcharge and the payment schedule *)

Lemma rel_outcome_bind {A B A' B' : Type} (R : A → B → Prop)
    (R' : A' → B' → Prop) m1 m2 (k1 : A → outcome A') (k2 : B → outcome B') :
  rel_outcome R m1 m2 →
  (∀ a b, R a b → rel_outcome R' (k1 a) (k2 b)) →
  rel_outcome R' (m1 ≫= k1) (m2 ≫= k2).
Proof. destruct m1, m2; simpl; try done. auto. Qed.

Section Schedule.
Variables loan1 loan2 : Loan.t.
Variable exits : list Z.

Local Ltac open_rel s t :=
  destruct s as [b ps mp rp tp mi mv fp nx bs ce le ip ev];
  destruct t as [b' ps' mp' rp' tp' mi' mv' fp' nx' bs' ce' le' ip' ev'];
  intros [(?&?&?&?&?&?&?& Hidle & Hidle' &?&?) Hno];
  unfold savings_idle in *; simplify_eq/=.

Lemma idle_add (x y z : float) :
  x = 0 ∨ x = nan → feq z 0 → x + y * z = 0 ∨ x + y * z = nan.
Proof.
  intros [-> | ->] Hz; [|right; apply float_add_nan_l].
  destruct (float_mul_0_cases y z Hz) as [-> | [-> | ->]]; auto.
Qed.

Lemma check_exit_same s t :
  schedule_rel s t →
  rel_outcome schedule_rel
    (check_exit loan1 exits s) (check_exit loan2 exits t).
Proof.
  open_rel s t. unfold check_exit, index; simpl.
  destruct le'; simpl; [done|].
  destruct (exits !! ce'); simpl; [|done].
  case_bool_decide; done.
Qed.

Lemma apply_lump_sum_same s t :
  schedule_rel s t →
  rel_outcome schedule_rel (apply_lump_sum s) (apply_lump_sum t).
Proof.
  open_rel s t. unfold apply_lump_sum; simpl.
  destruct nx' as [lump|]; [|done].
  case_bool_decide; [|done].
  case_bool_decide.
  - destruct (reamortize _ _ _) as [[[mp1 mi1] mv1]| |]; simpl; try done.
    destruct (pop_payment ps') as [[nx rs]| |]; simpl; done.
  - simpl. destruct (pop_payment ps') as [[nx rs]| |]; simpl; done.
Qed.

Lemma apply_savings_same s t :
  schedule_rel s t → schedule_rel (apply_savings s) (apply_savings t).
Proof.
  open_rel s t. unfold apply_savings; simpl.
  assert (Hnan : ∀ m, bool_decide (m < nan) = false).
  { intros m. apply bool_decide_eq_false_2. unfold flt.
    by rewrite float_ltb_nan_r. }
  destruct Hidle as [-> | ->], Hidle' as [-> | ->]; rewrite ?Hnan;
    repeat case_bool_decide; rewrite ?float_sub_0_r;
    (split; [|done]); unfold same_schedule, savings_idle; simpl;
    split_and!; auto.
Qed.

Lemma pay_month_same s t :
  schedule_rel s t → schedule_rel (pay_month s) (pay_month t).
Proof.
  open_rel s t. split; [|done].
  unfold same_schedule, savings_idle, pay_month, overflow; simpl.
  unfold no_overflow in Hno.
  destruct (Budget.overflow_principal_percent b') as [pct|].
  - subst pct. split_and!; try done; by apply idle_add.
  - rewrite Hno. by split_and!.
Qed.

Lemma update_budget_same s t :
  schedule_rel s t → schedule_rel (update_budget s) (update_budget t).
Proof.
  open_rel s t. unfold update_budget; simpl. case_bool_decide; done.
Qed.

Lemma month_same s t :
  schedule_rel s t →
  rel_outcome schedule_rel (month loan1 exits s) (month loan2 exits t).
Proof.
  intros Hst. unfold month.
  eapply rel_outcome_bind; [by apply check_exit_same|].
  intros s1 t1 H1.
  eapply rel_outcome_bind; [by apply apply_lump_sum_same|].
  intros s2 t2 H2. simpl.
  by apply update_budget_same, pay_month_same, apply_savings_same.
Qed.

Lemma after_months_same n s t :
  schedule_rel s t →
  rel_outcome schedule_rel
    (after_months loan1 exits n s) (after_months loan2 exits n t).
Proof.
  revert s t. induction n as [|n IH]; intros s t Hst; simpl; [done|].
  destruct Hst as [Hs Hno]. pose proof Hs as (_&_&_& <- &_).
  case_bool_decide; [|done].
  eapply rel_outcome_bind; [by apply month_same|]. auto.
Qed.

Hypothesis Hamount : Loan.amount loan1 = Loan.amount loan2.
Hypothesis Hrate : Loan.rate loan1 = Loan.rate loan2.
Hypothesis Hterm : Loan.term loan1 = Loan.term loan2.

Lemma init_same budget0 payments0 :
  no_overflow budget0 →
  rel_outcome schedule_rel
    (init loan1 exits budget0 payments0) (init loan2 exits budget0 payments0).
Proof.
  intros Hno. unfold init, GetMonthlyPayment.
  rewrite Hamount, Hrate, Hterm.
  eapply rel_outcome_bind with (R := eq).
  { by destruct (_ ≫= _). }
  intros mp ? <-.
  eapply rel_outcome_bind with (R := eq).
  { by destruct (match payments0 with [] => _ | _ => _ end). }
  intros [nx rs] ? <-. simpl. split; [|done].
  unfold same_schedule, savings_idle; simpl. split_and!; auto.
Qed.

(** Two loans with the same amount, rate and term, under a budget without
    overflow, have the same remaining principal after every number of
    months, whatever their fixed periods and variable rates. *)
Lemma surcharge_trajectory budget0 payments0 n :
  no_overflow budget0 →
  trajectory loan1 exits budget0 payments0 n
  = trajectory loan2 exits budget0 payments0 n.
Proof.
  intros Hno. unfold trajectory.
  pose proof (init_same budget0 payments0 Hno) as Hi.
  destruct (init loan1 _ _ _) as [s0| |], (init loan2 _ _ _) as [t0| |];
    simpl in *; try done; [|by subst].
  pose proof (after_months_same n _ _ Hi) as Hn.
  destruct (after_months loan1 _ _ _) as [s| |],
    (after_months loan2 _ _ _) as [t| |]; simpl in *; try done; [|by subst].
  destruct Hn as [(_&_&_& -> &_) _]. done.
Qed.

End Schedule.

(** C5.  In a month at or past the end of the fixed period the surcharge
    [(monthly_var_int - monthly_int) * remaining_principal] is added to
    [interest_paid] and taken from the leftover of the month, while the
    principal update stays
    [remaining_principal -= monthly_payment - monthly_int * remaining_principal].
    So the remaining principal of an ARM loan, under a budget without
    overflow, is month by month that of the loan with the same amount, rate
    and term and any other fixed period, a fully fixed one included. *)
Theorem surcharge_leaves_schedule :
  (∀ s : state, past_fixed s = true →
     extra_interest s
     = (monthly_var_int s - monthly_int s) * remaining_principal s
     ∧ interest_paid (pay_month s)
       = interest_paid s + monthly_int s * remaining_principal s
         + extra_interest s
     ∧ monthly_savings s
       = Budget.monthly_income (budget s)
         - (Budget.monthly_expenses (budget s) + monthly_payment s
            + Budget.monthly_prop_tax (budget s))
         - extra_interest s
     ∧ remaining_principal (pay_month s)
       = remaining_principal s
         - (monthly_payment s - monthly_int s * remaining_principal s))
  ∧ (∀ (arm fixed : Loan.t) exits budget0 payments0 n,
       Loan.amount arm = Loan.amount fixed →
       Loan.rate arm = Loan.rate fixed →
       Loan.term arm = Loan.term fixed →
       no_overflow budget0 →
       trajectory arm exits budget0 payments0 n
       = trajectory fixed exits budget0 payments0 n).
Proof.
  split; [apply surcharge_step|].
  intros arm fixed exits budget0 payments0 n Ha Hr Ht Hno.
  by apply surcharge_trajectory.
Qed.

(** ** Concrete runs *)

Ltac run := vm_compute; first [reflexivity | done].

Lemma month_fixed_period loan exits s s' :
  month loan exits s = Ok s' → fixed_period s' = fixed_period s.
Proof.
  intros (s1 & s2 & H1 & H2 & ->)%month_inv.
  destruct (update_budget_frame (pay_month (apply_savings s2)))
    as (_&_&_&_&_&_& -> &_).
  cbn [pay_month fixed_period].
  destruct (apply_savings_frame s2) as (_&_&_&_&_&_& -> &_).
  apply apply_lump_sum_frame in H2 as (_&_& -> &_).
  by apply check_exit_frame in H1 as (_&_&_&_&_&_&_& -> &_).
Qed.

(** C1.  [ex_arm] has a fixed period of 2 months; [ex_reamortizing] resets
    it at month 1 to terms with a fixed period of 5.  After the second month
    the monthly payment and both monthly rates are the ones of the new terms,
    computed on the principal left at month 1, but the fixed period the loop
    compares with is still 2, not 1 + 5: the surcharge is charged in month 2,
    which brings the interest paid from 13.0 to [163.0 / 7] instead of
    [13 + 36.0 / 7]. *)
Theorem reamortizing_keeps_fixed_period :
  match init ex_arm [] ex_budget [ex_reamortizing]
        ≫= after_months ex_arm [] 2 with
  | Ok s =>
      terms_paid s = 2%Z
      ∧ monthly_payment s = fl 48 / fl 7
      ∧ monthly_int s = 1 ∧ monthly_var_int s = fl 2
      ∧ fixed_period s = 2%Z
      ∧ past_fixed s = true
      ∧ interest_paid s = fl 13
      ∧ interest_paid (pay_month (apply_savings s)) = fl 163 / fl 7
  | _ => False
  end.
Proof. vm_compute. by split_and!. Qed.


(** Two different floats, by computing their representations. *)
Ltac float_neq H :=
  apply (f_equal Prim2SF) in H; vm_compute in H; discriminate H.

(** C4, a second decrease.  A two-month loan of 100 at 12% whose fixed
    period is one month and whose variable rate is not given: in the second
    month the surcharge is minus the interest, and adding both to an
    [interest_paid] of 1.0 gives 0.99999999999999989. *)
Lemma interest_paid_rounds_down :
  ∃ s s',
    init ex_loan_rounding [] ex_budget []
      ≫= after_months ex_loan_rounding [] 1 = Ok s
    ∧ step ex_loan_rounding [] s s'
    ∧ 0 < remaining_principal s
    ∧ interest_paid s = 1
    ∧ interest_paid s' < interest_paid s.
Proof. eexists _, _. split; [run|]. split; [split; run|]. by split_and!. Qed.

(** C3, counterexample.  In the payoff entry of [ex_arm] with
    [ex_reamortizing], [principal_paid] is 13.857142857142851 and
    [principal_remaining] is -6.8571428571428514: their sum is
    6.9999999999999991, not the amount 7. *)
Lemma principal_paid_sum_is_rounded : ¬ principal_sum_claim.
Proof.
  intros Hclaim.
  eassert (Heq : feq _ _).
  { eapply (Hclaim ex_arm [2%Z] ex_budget [ex_reamortizing] 10%nat _ 1%nat);
      [run|reflexivity]. }
  vm_compute in Heq. done.
Qed.

(** C7, counterexample.  With [overflow_principal_abs = 0.0] and a leftover
    of -6, the first month adds nothing to [budget_savings], where
    [min(leftover, overflow_principal_abs)] is -6. *)
Lemma overflow_abs_zero_adds_nothing : ¬ overflow_claim.
Proof.
  intros Hclaim.
  eassert (Heq : _ = _).
  { eapply (Hclaim ex_loan [] ex_budget_abs0 [] 0%nat); run. }
  float_neq Heq.
Qed.

(** C9, counterexample.  At 100% a month over 1024 months the power
    [2.0 ** 1024] is out of range and the call raises [OverflowError]; at an
    annual rate of [2 ** -60], which is not zero, [1 + i] is [1.0] and the
    call raises [ZeroDivisionError]. *)
Lemma GetMonthlyPayment_faults :
  GetMonthlyPayment ex_loan_long = Raise OverflowError
  ∧ ¬ feq (Loan.rate ex_loan_tiny_rate) 0
  ∧ GetMonthlyPayment ex_loan_tiny_rate = Raise ZeroDivisionError.
Proof. split_and!; run. Qed.

(** ** The theorems at concrete inputs *)

Lemma GetMonthlyPayment_spec_witness :
  GetMonthlyPayment ex_loan_zero_rate = Raise ZeroDivisionError
  ∧ GetMonthlyPayment ex_loan_long = Raise OverflowError
  ∧ GetMonthlyPayment ex_loan
    = Ok (fl 7 * (fl 1200 / (fl 12 * fl 100) * fl 8 / (fl 8 - 1))).
Proof.
  split_and!.
  - apply (proj1 (GetMonthlyPayment_spec ex_loan_zero_rate) (fl 3)); run.
  - apply (proj1 (proj2 (GetMonthlyPayment_spec ex_loan_long))). run.
  - apply (proj2 (proj2 (proj2 (GetMonthlyPayment_spec ex_loan)) (fl 8)
                    ltac:(run))).
    run.
Defined.

Lemma ex_exits_ascending : strictly_ascending [0; 2; 3; 5]%Z.
Proof.
  intros i a b Ha Hb.
  destruct i as [|[|[|[|i]]]]; simpl in *; simplify_eq; lia.
Qed.

Lemma exits_then_payoff_witness :
  ∃ evals, LoanCalc ex_loan [0; 2; 3; 5]%Z ex_budget [] 10 = Ok evals
    ∧ ∃ emitted final k,
      evals = emitted ++ [final]
      ∧ ¬ 0 < LoanEval.principal_remaining final
      ∧ LoanEval.length <$> emitted = take k [0; 2; 3; 5]%Z
      ∧ (∀ e, e ∈ take k [0; 2; 3; 5]%Z → (0 ≤ e < LoanEval.length final)%Z)
      ∧ (∀ e, [0; 2; 3; 5]%Z !! k = Some e → ¬ (0 ≤ e < LoanEval.length final)%Z)
      ∧ ((∀ e, e ∈ [0; 2; 3; 5]%Z → (0 ≤ e < LoanEval.length final)%Z) →
         LoanEval.length <$> evals = [0; 2; 3; 5]%Z ++ [LoanEval.length final]
         ∧ length evals = (length [0; 2; 3; 5]%Z + 1)%nat)
      ∧ ((∃ e, e ∈ [0; 2; 3; 5]%Z ∧ ¬ (0 ≤ e < LoanEval.length final)%Z) →
         (length evals < length [0; 2; 3; 5]%Z + 1)%nat).
Proof.
  eexists. split; [run|].
  apply (exits_then_payoff ex_loan [0; 2; 3; 5]%Z ex_exits_ascending
           ex_budget [] 10).
  run.
Defined.

Lemma principal_paid_accounting_witness :
  ∃ evals,
    LoanCalc ex_arm [2%Z] ex_budget [ex_reamortizing] 10 = Ok evals
    ∧ length evals = 2%nat
    ∧ Forall (λ e,
        LoanEval.principal_paid e
        = Loan.amount ex_arm - LoanEval.principal_remaining e) evals.
Proof.
  eexists. split; [run|]. split; [reflexivity|].
  apply (principal_paid_accounting ex_arm [2%Z] ex_budget [ex_reamortizing]
           10).
  run.
Defined.


Lemma surcharge_leaves_schedule_witness :
  (∃ s,
     init ex_arm [] ex_budget [] ≫= after_months ex_arm [] 2 = Ok s
     ∧ past_fixed s = true
     ∧ extra_interest s
       = (monthly_var_int s - monthly_int s) * remaining_principal s
     ∧ interest_paid (pay_month s)
       = interest_paid s + monthly_int s * remaining_principal s
         + extra_interest s
     ∧ monthly_savings s
       = Budget.monthly_income (budget s)
         - (Budget.monthly_expenses (budget s) + monthly_payment s
            + Budget.monthly_prop_tax (budget s))
         - extra_interest s
     ∧ remaining_principal (pay_month s)
       = remaining_principal s
         - (monthly_payment s - monthly_int s * remaining_principal s))
  ∧ trajectory ex_arm [] ex_budget [] 3 = trajectory ex_loan [] ex_budget [] 3.
Proof.
  split.
  - eexists. split; [run|]. split; [run|].
    apply (proj1 surcharge_leaves_schedule). run.
  - apply (proj2 surcharge_leaves_schedule); reflexivity.
Defined.

Lemma savings_sweep_witness :
  ∃ s s',
    init ex_loan [] ex_budget_percent [] ≫= after_months ex_loan [] 2 = Ok s
    ∧ month ex_loan [] s = Ok s'
    ∧ ∃ t, before_sweep ex_loan [] s = Ok t
        ∧ Budget.min_principal_payment (budget t) < budget_savings t
        ∧ budget_savings (apply_savings t) = 0
        ∧ remaining_principal s'
          = remaining_principal t - budget_savings t
            - (monthly_payment t
               - monthly_int t * (remaining_principal t - budget_savings t))
        ∧ interest_paid s'
          = interest_paid t
            + monthly_int t * (remaining_principal t - budget_savings t).
Proof.
  eexists _, _. split; [run|].
  match goal with |- ?A ∧ _ => assert (Hm : A) by run end.
  split; [exact Hm|].
  destruct (savings_sweep ex_loan [] _ _ Hm) as (t & Ht & _ & Hsw & _).
  exists t. split; [exact Ht|].
  assert (Hlt : Budget.min_principal_payment (budget t) < budget_savings t).
  { vm_compute in Ht. injection Ht as <-. run. }
  split; [exact Hlt|].
  destruct (Hsw Hlt) as (_ & H0 & _ & Hr & Hi).
  split; [exact H0|]. split; [exact Hr|].
  vm_compute in Ht. injection Ht as <-. exact Hi.
Defined.

Lemma overflow_accumulation_witness :
  (∃ s s', init ex_loan [] ex_budget_percent [] = Ok s
     ∧ month ex_loan [] s = Ok s'
     ∧ budget_savings s' = fl 9 * (fl 50 / fl 100))
  ∧ (∃ s s', init ex_loan [] ex_budget_abs [] = Ok s
       ∧ month ex_loan [] s = Ok s'
       ∧ budget_savings s' = float_min (fl 9) (fl 3))
  ∧ (∃ s s', init ex_loan [] ex_budget_abs0 [] = Ok s
       ∧ month ex_loan [] s = Ok s'
       ∧ budget_savings s' = 0).
Proof.
  split_and!.
  - eexists _, _. split; [run|].
    match goal with |- ?A ∧ _ => assert (Hm : A) by run end.
    split; [exact Hm|].
    destruct (overflow_accumulation ex_loan [] _ _ Hm) as (t & Ht & H1 & _).
    vm_compute in Ht. injection Ht as <-.
    rewrite (H1 (fl 50)) by run. run.
  - eexists _, _. split; [run|].
    match goal with |- ?A ∧ _ => assert (Hm : A) by run end.
    split; [exact Hm|].
    destruct (overflow_accumulation ex_loan [] _ _ Hm)
      as (t & Ht & _ & H2 & _).
    vm_compute in Ht. injection Ht as <-.
    rewrite (H2 ltac:(run) (fl 3)) by run. run.
  - eexists _, _. split; [run|].
    match goal with |- ?A ∧ _ => assert (Hm : A) by run end.
    split; [exact Hm|].
    destruct (overflow_accumulation ex_loan [] _ _ Hm)
      as (t & Ht & _ & _ & H3).
    vm_compute in Ht. injection Ht as <-.
    rewrite H3; [run|run|]. right. exists 0. split; run.
Defined.

Lemma budget_frame_witness :
  ∃ s0 s,
    init ex_loan [] ex_budget [] = Ok s0
    ∧ after_months ex_loan [] 1 s0 = Ok s
    ∧ (Budget.monthly_prop_tax (budget s) = Budget.monthly_prop_tax ex_budget
       ∧ Budget.min_principal_payment (budget s)
         = Budget.min_principal_payment ex_budget
       ∧ Budget.overflow_principal_percent (budget s)
         = Budget.overflow_principal_percent ex_budget
       ∧ Budget.overflow_principal_abs (budget s)
         = Budget.overflow_principal_abs ex_budget)
    ∧ ∀ s', step ex_loan [] s s' →
        (((terms_paid s + 1 + Budget.month_offset (budget s)) `mod` 12 = 0)%Z →
           Budget.monthly_income (budget s')
           = Budget.monthly_income (budget s)
             * (1 + Budget.salary_rate_increase (budget s) / fl 100)
           ∧ Budget.monthly_expenses (budget s')
             = Budget.monthly_expenses (budget s)
               * (1 + Budget.expenses_rate_increase (budget s) / fl 100))
        ∧ (¬ ((terms_paid s + 1 + Budget.month_offset (budget s)) `mod` 12
              = 0)%Z →
           Budget.monthly_income (budget s') = Budget.monthly_income (budget s)
           ∧ Budget.monthly_expenses (budget s')
             = Budget.monthly_expenses (budget s))
        ∧ Budget.monthly_prop_tax (budget s')
          = Budget.monthly_prop_tax (budget s)
        ∧ Budget.min_principal_payment (budget s')
          = Budget.min_principal_payment (budget s)
        ∧ Budget.overflow_principal_percent (budget s')
          = Budget.overflow_principal_percent (budget s)
        ∧ Budget.overflow_principal_abs (budget s')
          = Budget.overflow_principal_abs (budget s).
Proof.
  eexists _, _. split; [run|]. split; [run|].
  eapply (budget_frame ex_loan [] ex_budget []); [run|].
  apply (after_months_rtc ex_loan [] 1). run.
Defined.

(** ** The store-level program against the value-level one *)

Lemma run_bind {A B : Type} (m : Store.M A) (k : A → Store.M B) h :
  (m ≫= k) h =
  match m h with
  | (Ok a, h') => k a h'
  | (Raise e, h') => (Raise e, h')
  | (OutOfFuel, h') => (OutOfFuel, h')
  end.
Proof. reflexivity. Qed.

Lemma run_ret {A : Type} (a : A) (h : heap) : (mret a : Store.M A) h = (Ok a, h).
Proof. reflexivity. Qed.

Lemma simulates_bind {A B A' B' : Type} h0 h
    (R : heap → A → B → Prop) (R' : heap → A' → B' → Prop)
    (m : Store.M A) (o : outcome B) (k : A → Store.M A') (k' : B → outcome B') :
  simulates h0 h R m o →
  (∀ h1 a b, h0 ⊆ h1 → R h1 a b → simulates h0 h1 R' (k a) (k' b)) →
  simulates h0 h R' (m ≫= k) (o ≫= k').
Proof.
  unfold simulates. rewrite run_bind.
  destruct (m h) as [[a|e|] h1], o as [b|e'|]; simpl; try done.
  intros [Hsub HR] Hk. by apply Hk.
Qed.

Lemma run_get_loan h r l :
  h !! r = Some (Store.LoanObj l) → Store.get_loan r h = (Ok l, h).
Proof. unfold Store.get_loan. by intros ->. Qed.
Lemma run_get_budget h r b :
  h !! r = Some (Store.BudgetObj b) → Store.get_budget r h = (Ok b, h).
Proof. unfold Store.get_budget. by intros ->. Qed.
Lemma run_get_payment h r p :
  h !! r = Some (Store.PaymentObj p) → Store.get_payment r h = (Ok p, h).
Proof. unfold Store.get_payment. by intros ->. Qed.
Lemma run_get_payments h r ps :
  h !! r = Some (Store.PaymentList ps) → Store.get_payments r h = (Ok ps, h).
Proof. unfold Store.get_payments. by intros ->. Qed.
Lemma run_get_exits h r zs :
  h !! r = Some (Store.IntList zs) → Store.get_exits r h = (Ok zs, h).
Proof. unfold Store.get_exits. by intros ->. Qed.

Lemma run_lift {A : Type} (o : outcome A) (h : heap) :
  Store.lift o h = (o, h).
Proof. reflexivity. Qed.

Lemma run_put h r o : Store.put r o h = (Ok tt, <[r:=o]> h).
Proof. reflexivity. Qed.

Lemma run_alloc (h : heap) o :
  ∃ r, h !! r = None ∧ Store.alloc o h = (Ok r, <[r:=o]> h).
Proof.
  exists (fresh (dom h)). split; [|done].
  apply not_elem_of_dom, is_fresh.
Qed.

Lemma pop_Forall2 {A B : Type} (P : A → B → Prop) rs ps :
  Forall2 P rs ps →
  match pop rs, pop ps with
  | Ok (r, rest), Ok (p, rest') => P r p ∧ Forall2 P rest rest'
  | Raise e, Raise e' => e = e'
  | _, _ => False
  end.
Proof.
  intros H%Forall2_reverse. unfold pop.
  destruct H as [|r p rs' ps' Hrp Hrest]; [done|].
  split; [done|]. by apply Forall2_reverse.
Qed.

Lemma payment_value_inv (h : heap) r p :
  payment_value h r = Some p →
  ∃ po, h !! r = Some (Store.PaymentObj po)
    ∧ PrincipalPayment.type p = Store.Payment.type po
    ∧ PrincipalPayment.amount p = Store.Payment.amount po
    ∧ PrincipalPayment.time p = Store.Payment.time po
    ∧ match Store.Payment.new_loan_terms po with
      | None => PrincipalPayment.new_loan_terms p = None
      | Some t => ∃ lt, h !! t = Some (Store.LoanObj lt)
                   ∧ PrincipalPayment.new_loan_terms p = Some lt
      end.
Proof.
  unfold payment_value. intros H.
  destruct (h !! r) as [[| |po| |]|]; try done.
  exists po. split; [done|].
  destruct (Store.Payment.new_loan_terms po) as [t|]; [|by simplify_eq].
  destruct (h !! t) as [[lt| | | |]|]; try done. simplify_eq. eauto 10.
Qed.

Lemma lookup_alloc (h : heap) r r' o x :
  h !! r = None → h !! r' = Some o → <[r:=x]> h !! r' = Some o.
Proof. intros Hr Hr'. rewrite lookup_insert_ne; [done|]. congruence. Qed.

Ltac hlookup :=
  first [ apply lookup_insert_eq
        | eassumption
        | apply lookup_alloc; [eassumption|hlookup]
        | rewrite lookup_insert_ne by done; hlookup ].

Ltac hstep :=
  repeat (first
    [ rewrite run_bind
    | rewrite run_ret
    | rewrite run_lift
    | rewrite run_put
    | rewrite insert_insert_eq
    | erewrite run_get_loan by hlookup
    | erewrite run_get_budget by hlookup
    | erewrite run_get_payment by hlookup
    | erewrite run_get_payments by hlookup
    | erewrite run_get_exits by hlookup ];
    cbv beta iota).

(** The fields of [represents], by name. *)
Ltac open_rep H :=
  destruct H as
    [Rsub Rloan Rexits Rbudget Rbudget_new Rpayments Rpayments_new Rnext
     Rmonthly_payment Rremaining_principal Rterms_paid Rmonthly_int
     Rmonthly_var_int Rfixed_period Rbudget_savings Rcurrent_exit Rlast_exit
     Rinterest_paid Rloan_evals].

Section Simulation.
Variable h0 : heap.
Variable l : Loan.t.
Variable zs : list Z.

Lemma apply_savings_sim h v s :
  represents h0 h l zs v s →
  simulates h0 h (λ h' v' s', represents h0 h' l zs v' s')
    (Store.apply_savings v) (Ok (apply_savings s)).
Proof.
  intros Hrep. unfold simulates, Store.apply_savings, apply_savings.
  rewrite run_bind, (run_get_budget _ _ _ (rep_budget _ _ _ _ _ _ Hrep)).
  rewrite (rep_budget_savings _ _ _ _ _ _ Hrep).
  case_bool_decide; rewrite run_ret; (split; [apply Hrep|]); [|done].
  open_rep Hrep. constructor; simpl; try done; congruence.
Qed.

Lemma pay_month_sim h v s :
  represents h0 h l zs v s →
  simulates h0 h (λ h' v' s', represents h0 h' l zs v' s')
    (Store.pay_month v) (Ok (pay_month s)).
Proof.
  intros Hrep. unfold simulates, Store.pay_month.
  rewrite run_bind, (run_get_budget _ _ _ (rep_budget _ _ _ _ _ _ Hrep)).
  rewrite run_ret. split; [apply Hrep|].
  open_rep Hrep. constructor; simpl; try done; try congruence.
  - unfold interest. congruence.
  - unfold overflow, monthly_savings, past_fixed, extra_interest.
    rewrite <- Rmonthly_payment, <- Rremaining_principal,
      <- Rterms_paid, <- Rmonthly_int, <- Rmonthly_var_int,
      <- Rfixed_period, <- Rbudget_savings.
    destruct (Budget.overflow_principal_percent (budget s)); [done|].
    by destruct (truthy _).
  - unfold past_fixed, interest, extra_interest.
    by rewrite <- Rremaining_principal, <- Rterms_paid,
      <- Rmonthly_int, <- Rmonthly_var_int, <- Rfixed_period,
      <- Rinterest_paid.
Qed.

Lemma represents_weaken h h' v s :
  represents h0 h l zs v s → h ⊆ h' → represents h0 h' l zs v s.
Proof.
  intros Hrep Hsub. open_rep Hrep. constructor; try done.
  - by trans h.
  - by eapply lookup_weaken.
  - by eapply lookup_weaken.
  - by eapply lookup_weaken.
  - destruct Rpayments as (rs & Hrs & Hall).
    exists rs. split; [by eapply lookup_weaken|done].
Qed.

Lemma represents_put_budget h v s b' :
  represents h0 h l zs v s →
  represents h0 (<[Store.budget v:=Store.BudgetObj b']> h) l zs v
    (mkState b' (payments s) (monthly_payment s) (remaining_principal s)
       (terms_paid s) (monthly_int s) (monthly_var_int s) (fixed_period s)
       (next_lump_sum s) (budget_savings s) (current_exit s) (last_exit s)
       (interest_paid s) (loan_evals s)).
Proof.
  intros Hrep. open_rep Hrep.
  assert (Hne : ∀ r o, h !! r = Some o → (∀ b, o ≠ Store.BudgetObj b) →
    <[Store.budget v:=Store.BudgetObj b']> h !! r = Some o).
  { intros r o Hr Ho. rewrite lookup_insert_ne; [done|].
    intros <-. rewrite Rbudget in Hr. simplify_eq. by eapply Ho. }
  constructor; simpl; try done.
  - by apply insert_subseteq_r.
  - by apply Hne.
  - by apply Hne.
  - by rewrite lookup_insert_eq.
  - destruct Rpayments as (rs & Hrs & Hall).
    exists rs. split; [by apply Hne|done].
Qed.

Lemma update_budget_sim h v s :
  represents h0 h l zs v s →
  simulates h0 h (λ h' _ s', represents h0 h' l zs v s')
    (Store.update_budget v) (Ok (update_budget s)).
Proof.
  intros Hrep. unfold simulates, Store.update_budget, update_budget.
  rewrite run_bind, (run_get_budget _ _ _ (rep_budget _ _ _ _ _ _ Hrep)).
  rewrite (rep_terms_paid _ _ _ _ _ _ Hrep).
  case_bool_decide; [|rewrite run_ret; split; [apply Hrep|done]].
  rewrite run_bind, run_put, run_bind.
  erewrite run_get_budget by apply lookup_insert_eq.
  rewrite run_put, insert_insert_eq.
  eapply represents_put_budget in Hrep. split; [apply Hrep|done].
Qed.

Lemma check_exit_sim h v s :
  represents h0 h l zs v s →
  simulates h0 h (λ h' v' s', represents h0 h' l zs v' s')
    (Store.check_exit v) (check_exit l zs s).
Proof.
  intros Hrep. unfold simulates, Store.check_exit, check_exit.
  rewrite <- (rep_last_exit _ _ _ _ _ _ Hrep).
  destruct (Store.last_exit v); simpl; [split; [apply Hrep|done]|].
  rewrite run_bind, (run_get_exits _ _ _ (rep_exits _ _ _ _ _ _ Hrep)).
  rewrite run_bind, run_lift.
  rewrite <- (rep_current_exit _ _ _ _ _ _ Hrep).
  destruct (index zs (Store.current_exit v)) as [e| |]; simpl;
    [|split; [done|apply Hrep]|apply Hrep].
  rewrite <- (rep_terms_paid _ _ _ _ _ _ Hrep).
  case_bool_decide; [|rewrite run_ret; split; [apply Hrep|done]].
  unfold Store.snapshot.
  rewrite !run_bind, (run_get_loan _ _ _ (rep_loan _ _ _ _ _ _ Hrep)).
  rewrite !run_ret. split; [apply Hrep|].
  open_rep Hrep. constructor; simpl; try done.
  unfold snapshot. congruence.
Qed.

Lemma reamortize_sim h po p remaining tp :
  h0 ⊆ h →
  PrincipalPayment.type p = Store.Payment.type po →
  match Store.Payment.new_loan_terms po with
  | None => PrincipalPayment.new_loan_terms p = None
  | Some t => ∃ lt, h0 !! t = Some (Store.LoanObj lt)
               ∧ PrincipalPayment.new_loan_terms p = Some lt
  end →
  simulates h0 h (λ h' a b, a = b ∧ h ⊆ h')
    (Store.reamortize po remaining tp) (reamortize p remaining tp).
Proof.
  intros Hsub Hty Hterms.
  unfold simulates, Store.reamortize, reamortize.
  destruct (Store.Payment.new_loan_terms po) as [t|]; [|by rewrite Hterms].
  destruct Hterms as (lt & Ht & ->).
  unfold Store.replace_loan, Store.GetMonthlyPayment.
  pose proof (lookup_weaken _ _ _ _ Ht Hsub) as Ht'. hstep.
  destruct (run_alloc h (Store.LoanObj lt)) as (r & Hr & ->).
  assert (Hfresh : ∀ o, h0 ⊆ <[r:=o]> h).
  { intros o. trans h; [done|]. by apply insert_subseteq. }
  hstep.
  destruct (GetMonthlyPayment (Loan.set_amount remaining lt)) as [mp|e|];
    simpl; [|done|done].
  hstep. split; [done|]. split; [done|]. by apply insert_subseteq.
Qed.

Lemma pop_payment_sim h v s :
  represents h0 h l zs v s →
  match Store.pop_payment (Store.payments v) h, pop_payment (payments s) with
  | (Ok nx, h'), Ok (nx', rest') =>
      match nx, nx' with
      | Some r, Some p => payment_value h0 r = Some p
      | None, None => True
      | _, _ => False
      end
      ∧ ∃ rs', Forall2 (λ r p, payment_value h0 r = Some p) rs' rest'
          ∧ h' !! Store.payments v = Some (Store.PaymentList rs')
          ∧ h0 ⊆ h'
          ∧ ∀ r o, h !! r = Some o → r ≠ Store.payments v →
              h' !! r = Some o
  | (Raise e, h'), Raise e' => e = e' ∧ h0 ⊆ h'
  | _, _ => False
  end.
Proof.
  intros Hrep. destruct (rep_payments _ _ _ _ _ _ Hrep) as (rs & Hrs & Hall).
  pose proof (rep_sub _ _ _ _ _ _ Hrep) as Hsub.
  pose proof (rep_payments_new _ _ _ _ _ _ Hrep) as Hnew.
  unfold Store.pop_payment, pop_payment, Store.pop_payments.
  pose proof (pop_Forall2 _ _ _ Hall) as Hpop.
  inversion Hall as [|r p rs' ps' Hrp Hrest Hrs' Hps]; subst rs.
  { hstep. split; [done|]. exists []. by split_and!. }
  rewrite <- Hps in *. hstep.
  destruct (pop (r :: rs')) as [[r1 rest1]|e|],
    (pop (p :: ps')) as [[p1 rest1']|e'|]; try done.
  destruct Hpop as [Hp1 Hrest1]. hstep.
  split; [done|]. exists rest1. split_and!; try done.
  - by rewrite lookup_insert_eq.
  - by apply insert_subseteq_r.
  - intros r' o Hr' Hne. by rewrite lookup_insert_ne.
Qed.

Lemma apply_lump_sum_sim h v s :
  represents h0 h l zs v s →
  simulates h0 h (λ h' v' s', represents h0 h' l zs v' s')
    (Store.apply_lump_sum v) (apply_lump_sum s).
Proof.
  intros Hrep. pose proof (rep_next _ _ _ _ _ _ Hrep) as Hnext.
  pose proof (rep_sub _ _ _ _ _ _ Hrep) as Hsub.
  unfold simulates, Store.apply_lump_sum, apply_lump_sum.
  destruct (Store.next_lump_sum v) as [r|], (next_lump_sum s) as [p|];
    try done.
  apply payment_value_inv in Hnext as (po & Hr & Hty & Ham & Hti & Hterms).
  pose proof (lookup_weaken _ _ _ _ Hr Hsub) as Hr'. hstep.
  rewrite Hti, Hty, Ham, <- (rep_terms_paid _ _ _ _ _ _ Hrep),
    <- (rep_remaining_principal _ _ _ _ _ _ Hrep),
    <- (rep_monthly_payment _ _ _ _ _ _ Hrep),
    <- (rep_monthly_int _ _ _ _ _ _ Hrep),
    <- (rep_monthly_var_int _ _ _ _ _ _ Hrep).
  case_bool_decide; [|hstep; by split].
  assert (Hpay : simulates h0 h (λ h' a b, a = b ∧ h ⊆ h')
    (if bool_decide (Store.Payment.type po = REAMORTIZING)
     then Store.reamortize po
            (Store.remaining_principal v - Store.Payment.amount po)
            (Store.terms_paid v)
     else mret (Store.monthly_payment v, Store.monthly_int v,
                Store.monthly_var_int v))
    (if bool_decide (Store.Payment.type po = REAMORTIZING)
     then reamortize p
            (Store.remaining_principal v - Store.Payment.amount po)
            (Store.terms_paid v)
     else Ok (Store.monthly_payment v, Store.monthly_int v,
              Store.monthly_var_int v))).
  { case_bool_decide; [by apply reamortize_sim|].
    unfold simulates. by hstep. }
  unfold simulates in Hpay. hstep.
  destruct ((if bool_decide (Store.Payment.type po = REAMORTIZING)
             then Store.reamortize _ _ _ else _) h)
    as [[[[mp mi] mv]|e|] h1],
    (if bool_decide (Store.Payment.type po = REAMORTIZING)
     then reamortize _ _ _ else _) as [[[mp' mi'] mv']|e'|];
    try done.
  destruct Hpay as (Hsub1 & ? & Hh1); simplify_eq. hstep.
  pose proof (represents_weaken _ _ _ _ Hrep Hh1) as Hrep1.
  pose proof (pop_payment_sim _ _ _ Hrep1) as Hpop.
  destruct (Store.pop_payment (Store.payments v) h1) as [[nx|e|] h2],
    (pop_payment (payments s)) as [[nx' rest']|e'|]; try done.
  destruct Hpop as (Hnx & rs' & Hall & Hps & Hsub2 & Hframe). hstep.
  split; [done|].
  open_rep Hrep1. destruct Rpayments as (rs & Hrs & _).
  constructor; simpl; try done.
  - apply Hframe; [done|]. intros Heq. by rewrite Heq, Hrs in Rloan.
  - apply Hframe; [done|]. intros Heq. by rewrite Heq, Hrs in Rexits.
  - apply Hframe; [done|]. intros Heq. by rewrite Heq, Hrs in Rbudget.
  - eauto.
Qed.

Lemma month_sim h v s :
  represents h0 h l zs v s →
  simulates h0 h (λ h' v' s', represents h0 h' l zs v' s')
    (Store.month v) (month l zs s).
Proof.
  intros Hrep. unfold Store.month, month.
  eapply simulates_bind; [by apply check_exit_sim|].
  intros h1 v1 s1 _ Hrep1.
  eapply simulates_bind; [by apply apply_lump_sum_sim|].
  intros h2 v2 s2 _ Hrep2.
  pose proof (apply_savings_sim _ _ _ Hrep2) as H3.
  unfold simulates in *. rewrite run_bind.
  destruct (Store.apply_savings v2 h2) as [[v3|e|] h3]; try done.
  destruct H3 as [_ Hrep3].
  pose proof (pay_month_sim _ _ _ Hrep3) as H4. rewrite run_bind.
  unfold simulates in H4.
  destruct (Store.pay_month v3 h3) as [[v4|e|] h4]; try done.
      destruct H4 as [_ Hrep4].
  pose proof (update_budget_sim _ _ _ Hrep4) as H5. rewrite run_bind.
  unfold simulates in H5.
  by destruct (Store.update_budget v4 h4) as [[[]|e|] h5].
Qed.

Lemma loop_sim fuel h v s :
  represents h0 h l zs v s →
  simulates h0 h (λ h' v' s', represents h0 h' l zs v' s')
    (Store.loop fuel v) (loop l zs fuel s).
Proof.
  revert h v s. induction fuel as [|fuel IH]; intros h v s Hrep; simpl;
    rewrite (rep_remaining_principal _ _ _ _ _ _ Hrep);
    case_bool_decide; try (split; [apply Hrep|done]).
  - apply Hrep.
  - eapply simulates_bind; [by apply month_sim|]. eauto.
Qed.

End Simulation.

Lemma read_args_inv h loan0 budget0 payments0 exits0 l b ps zs :
  read_args h loan0 budget0 payments0 exits0 = Some (l, b, ps, zs) →
  h !! loan0 = Some (Store.LoanObj l)
  ∧ h !! budget0 = Some (Store.BudgetObj b)
  ∧ h !! exits0 = Some (Store.IntList zs)
  ∧ ∃ rs, h !! payments0 = Some (Store.PaymentList rs)
      ∧ Forall2 (λ r p, payment_value h r = Some p) rs ps.
Proof.
  unfold read_args. intros H.
  destruct (h !! loan0) as [[l'| | | |]|]; try done.
  destruct (h !! budget0) as [[|b'| | |]|]; try done.
  destruct (h !! payments0) as [[| | |rs|]|]; try done.
  destruct (h !! exits0) as [[| | | |zs']|]; try done.
  destruct (mapM (payment_value h) rs) as [ps'|] eqn:Hps; simplify_eq/=.
  split_and!; try done. exists rs. split; [done|]. by apply mapM_Some_1.
Qed.

Lemma init_sim h loan0 budget0 payments0 exits0 l b ps zs :
  read_args h loan0 budget0 payments0 exits0 = Some (l, b, ps, zs) →
  simulates h h (λ h' v s, represents h h' l zs v s)
    (Store.init loan0 budget0 payments0 exits0) (init l zs b ps).
Proof.
  intros (Hl & Hb & Hz & rs & Hrs & Hall)%read_args_inv.
  unfold simulates, Store.init, init, Store.replace_loan,
    Store.replace_budget, Store.copy_payments, Store.copy_exits,
    Store.GetMonthlyPayment.
  hstep. destruct (run_alloc h (Store.LoanObj l)) as (r1 & Hr1 & ->).
  hstep. destruct (run_alloc (<[r1:=Store.LoanObj l]> h) (Store.BudgetObj b))
    as (r2 & Hr2 & ->).
  hstep.
  destruct (run_alloc (<[r2:=Store.BudgetObj b]> (<[r1:=Store.LoanObj l]> h))
              (Store.PaymentList rs)) as (r3 & Hr3 & ->).
  hstep.
  destruct (run_alloc (<[r3:=Store.PaymentList rs]>
              (<[r2:=Store.BudgetObj b]> (<[r1:=Store.LoanObj l]> h)))
              (Store.IntList zs)) as (r4 & Hr4 & ->).
  pose proof Hr2 as [Hr2' Hne12]%lookup_insert_None.
  pose proof Hr3 as [[Hr3' Hne13]%lookup_insert_None Hne23]%lookup_insert_None.
  pose proof Hr4
    as [[[Hr4' Hne14]%lookup_insert_None Hne24]%lookup_insert_None Hne34]
         %lookup_insert_None.
  assert (Hsub : ∀ o1 o2 o3 o4,
    h ⊆ <[r4:=o4]> (<[r3:=o3]> (<[r2:=o2]> (<[r1:=o1]> h)))).
  { intros. by repeat apply insert_subseteq_r. }
  hstep.
  destruct (GetMonthlyPayment l) as [mp|e|]; simpl; [|done|done].
  pose proof (pop_Forall2 _ _ _ (Forall2_reverse _ _ _ Hall)) as Hpop.
  unfold Store.reverse_payments, Store.pop_payments.
  inversion Hall as [|r p rs' ps' Hrp Hrest Hrs' Hps]; subst.
  - hstep. split; [done|].
    constructor; simpl; try done; try hlookup.
    exists []. split; [hlookup|done].
  - hstep.
    destruct (pop (reverse (r :: rs'))) as [[r' rest]|e|],
      (pop (reverse (p :: ps'))) as [[p' rest']|e'|]; try done.
    2: { split; [done|]. by repeat apply insert_subseteq_r. }
    destruct Hpop as [Hp' Hrest']. hstep.
    split; [by repeat apply insert_subseteq_r|].
    constructor; simpl; try done; try hlookup.
    + by repeat apply insert_subseteq_r.
    + exists rest. split; [hlookup|done].
Qed.

Lemma LoanCalc_sim h loan0 budget0 payments0 exits0 fuel l b ps zs :
  read_args h loan0 budget0 payments0 exits0 = Some (l, b, ps, zs) →
  simulates h h (λ _ evals evals', evals = evals')
    (Store.LoanCalc loan0 budget0 payments0 exits0 fuel)
    (LoanCalc l zs b ps fuel).
Proof.
  intros Hargs. unfold Store.LoanCalc, LoanCalc.
  eapply simulates_bind; [by apply init_sim|].
  intros h1 v0 s0 _ Hrep0.
  eapply simulates_bind; [by apply loop_sim|].
  intros h2 v s Hsub Hrep. unfold simulates, Store.snapshot.
  pose proof (rep_loan _ _ _ _ _ _ Hrep) as Hl. hstep.
  split; [done|]. open_rep Hrep. unfold snapshot. congruence.
Qed.

Lemma simulates_eq {A : Type} h (m : Store.M A) (o : outcome A) :
  simulates h h (λ _ a a', a = a') m o → (m h).1 = o ∧ h ⊆ (m h).2.
Proof.
  unfold simulates.
  destruct (m h) as [[a|e|] h'], o as [a'|e'|]; simpl; try done.
  - by intros [? ->].
  - by intros [-> ?].
Qed.

Lemma payment_value_weaken (h h' : heap) r p :
  h ⊆ h' → payment_value h r = Some p → payment_value h' r = Some p.
Proof.
  intros Hsub (po & Hr & Hty & Ham & Hti & Hterms)%payment_value_inv.
  unfold payment_value. rewrite (lookup_weaken _ _ _ _ Hr Hsub).
  destruct p as [ty am ti terms]; simpl in *; subst.
  destruct (Store.Payment.new_loan_terms po) as [t|]; [|by subst].
  destruct Hterms as (lt & Ht & ->).
  by rewrite (lookup_weaken _ _ _ _ Ht Hsub).
Qed.

Lemma read_args_weaken (h h' : heap) loan0 budget0 payments0 exits0 args :
  h ⊆ h' →
  read_args h loan0 budget0 payments0 exits0 = Some args →
  read_args h' loan0 budget0 payments0 exits0 = Some args.
Proof.
  intros Hsub. destruct args as [[[l b] ps] zs].
  intros (Hl & Hb & Hz & rs & Hrs & Hall)%read_args_inv.
  unfold read_args.
  rewrite (lookup_weaken _ _ _ _ Hl Hsub), (lookup_weaken _ _ _ _ Hb Hsub),
    (lookup_weaken _ _ _ _ Hz Hsub), (lookup_weaken _ _ _ _ Hrs Hsub).
  erewrite mapM_Some_2; [done|].
  eapply Forall2_impl; [done|]. intros r p. by apply payment_value_weaken.
Qed.

(** C8.  A call of [LoanCalc] on arguments of the declared types leaves
    every object of the caller's store as it was, the four arguments and the
    payments and loan terms they refer to included: all writes go to objects
    the call allocated.  Its result is the one of the value-level [LoanCalc]
    on the values of the arguments, so a second call on the same objects
    returns the same outcome as the first. *)
Theorem LoanCalc_isolation (h : heap) loan0 budget0 payments0 exits0 fuel
    l b ps zs :
  read_args h loan0 budget0 payments0 exits0 = Some (l, b, ps, zs) →
  let first := Store.LoanCalc loan0 budget0 payments0 exits0 fuel h in
  let second := Store.LoanCalc loan0 budget0 payments0 exits0 fuel first.2 in
  (∀ r o, h !! r = Some o → first.2 !! r = Some o)
  ∧ read_args first.2 loan0 budget0 payments0 exits0 = Some (l, b, ps, zs)
  ∧ first.1 = LoanCalc l zs b ps fuel
  ∧ second.1 = first.1.
Proof.
  intros Hargs first second.
  destruct (simulates_eq _ _ _ (LoanCalc_sim _ _ _ _ _ fuel _ _ _ _ Hargs))
    as [Hres Hsub]. fold first in Hres, Hsub.
  pose proof (read_args_weaken _ _ _ _ _ _ _ Hsub Hargs) as Hargs'.
  destruct (simulates_eq _ _ _ (LoanCalc_sim _ _ _ _ _ fuel _ _ _ _ Hargs'))
    as [Hres' _]. fold second in Hres'.
  split_and!; try done.
  - intros r o Hr. by eapply lookup_weaken.
  - congruence.
Qed.

Lemma LoanCalc_isolation_witness :
  let first := Store.LoanCalc 1%positive 2%positive 4%positive 5%positive 10
                 ex_heap in
  let second := Store.LoanCalc 1%positive 2%positive 4%positive 5%positive 10
                  first.2 in
  (∀ r o, ex_heap !! r = Some o → first.2 !! r = Some o)
  ∧ read_args first.2 1%positive 2%positive 4%positive 5%positive
    = Some (ex_arm, ex_budget,
            [PrincipalPayment.mk REAMORTIZING 0 1 (Some ex_arm)], [2%Z])
  ∧ first.1
    = LoanCalc ex_arm [2%Z] ex_budget
        [PrincipalPayment.mk REAMORTIZING 0 1 (Some ex_arm)] 10
  ∧ second.1 = first.1.
Proof. apply LoanCalc_isolation. run. Defined.

(** * Further properties of the code *)

(** ** More on GetMonthlyPayment *)

(** X1.  [GetMonthlyPayment] of a loan whose term is 0 months raises
    [ZeroDivisionError], whatever the rate: [math.pow(1 + i, 0)] is 1, so the
    denominator [math.pow(1 + i, term) - 1] is zero. *)
Theorem GetMonthlyPayment_zero_term (loan : Loan.t) :
  Loan.term loan = 0%Z →
  GetMonthlyPayment loan = Raise ZeroDivisionError.
Proof.
  intros Ht. unfold GetMonthlyPayment. by rewrite Ht, math_pow_0.
Qed.

(** ** Exceptions of the loop *)

Lemma GetMonthlyPayment_raise loan e :
  GetMonthlyPayment loan = Raise e →
  e = ZeroDivisionError ∨ e = ValueError ∨ e = OverflowError.
Proof.
  unfold GetMonthlyPayment. intros H.
  destruct (math_pow _ _) as [p|e'|] eqn:Hp; simpl in H; [| |done].
  - unfold float_div in H. case_bool_decide; simpl in H; simplify_eq. auto.
  - simplify_eq. by apply math_pow_raise in Hp as [->| ->]; auto.
Qed.

Lemma pop_snoc {A : Type} (l : list A) x : pop (l ++ [x]) = Ok (x, l).
Proof. unfold pop. by rewrite reverse_snoc, reverse_involutive. Qed.

Lemma pop_payment_reverse (q : list PrincipalPayment.t) :
  pop_payment (reverse q)
  = Ok (match q with
        | [] => (None, [])
        | p :: q' => (Some p, reverse q')
        end).
Proof.
  destruct q as [|p q']; [done|].
  rewrite reverse_cons. unfold pop_payment.
  destruct (reverse q' ++ [p]) as [|y l] eqn:E.
  { by destruct (reverse q'). }
  rewrite <- E, pop_snoc. done.
Qed.

Lemma init_queue loan exits budget0 payments0 s0 :
  init loan exits budget0 payments0 = Ok s0 →
  match payments0 with
  | [] => next_lump_sum s0 = None ∧ payments s0 = []
  | p :: q => next_lump_sum s0 = Some p ∧ payments s0 = reverse q
  end.
Proof.
  unfold init. intros H. inv_bind H.
  destruct payments0 as [|p q]; [by simplify_eq/=|].
  rewrite reverse_cons, pop_snoc in H. by simplify_eq/=.
Qed.

Lemma init_ok loan exits budget0 payments0 m :
  GetMonthlyPayment loan = Ok m →
  ∃ s0, init loan exits budget0 payments0 = Ok s0 ∧ monthly_payment s0 = m.
Proof.
  intros Hm. unfold init. rewrite Hm, bind_Ok.
  destruct payments0 as [|p q]; [by eexists|].
  rewrite reverse_cons, pop_snoc. by eexists.
Qed.

Lemma init_raise loan exits budget0 payments0 e :
  init loan exits budget0 payments0 = Raise e →
  GetMonthlyPayment loan = Raise e.
Proof.
  destruct (GetMonthlyPayment loan) as [m| |] eqn:Hm.
  - destruct (init_ok loan exits budget0 payments0 m Hm) as (s0 & -> & _).
    done.
  - unfold init. rewrite Hm. intros H. simpl in H. by simplify_eq.
  - unfold init. rewrite Hm. intros H. simpl in H. by simplify_eq.
Qed.

Section Cursor.
Variable loan : Loan.t.
Variable exits : list Z.

Lemma cursor_wf_init budget0 payments0 s0 :
  init loan exits budget0 payments0 = Ok s0 → cursor_wf exits s0.
Proof.
  intros (_&_&_&_&_&_&_& Hk & Hl &_)%init_fields.
  unfold cursor_wf. rewrite Hk, Hl. split; [lia|]. by destruct exits.
Qed.

Lemma check_exit_ok s :
  cursor_wf exits s → ∃ s', check_exit loan exits s = Ok s'.
Proof.
  intros [Hk Hl]. unfold check_exit, index. rewrite Hl.
  case_bool_decide as Hend; simpl; [by eexists|].
  destruct (lookup_lt_is_Some_2 exits (current_exit s)) as [e ->]; [lia|].
  simpl. case_bool_decide; by eexists.
Qed.

Lemma check_exit_cursor_wf s s' :
  cursor_wf exits s → check_exit loan exits s = Ok s' → cursor_wf exits s'.
Proof.
  intros [Hk Hl] [[-> _] | (Hf & He & Hk' & Hl' & _)]%check_exit_cases;
    [done|].
  unfold cursor_wf. rewrite Hk', Hl'. split; [|done].
  apply lookup_lt_Some in He. lia.
Qed.

Lemma month_cursor_wf s s' :
  cursor_wf exits s → month loan exits s = Ok s' → cursor_wf exits s'.
Proof.
  intros Hwf (s1 & s2 & H1 & H2 & ->)%month_inv.
  pose proof (check_exit_cursor_wf _ _ Hwf H1) as [Hk Hl].
  apply apply_lump_sum_frame in H2 as (_&_&_&_& Hk2 & Hl2 &_).
  destruct (apply_savings_frame s2) as (_&_&_&_&_&_&_&_& Hk3 & Hl3 &_).
  destruct (update_budget_frame (pay_month (apply_savings s2)))
    as (_&_&_&_&_&_&_&_&_& Hk4 & Hl4 &_).
  unfold cursor_wf. rewrite Hk4, Hl4. cbn [pay_month current_exit last_exit].
  by rewrite Hk3, Hl3, Hk2, Hl2.
Qed.

Lemma reamortize_raise lump remaining tp e :
  reamortize lump remaining tp = Raise e → e ≠ IndexError.
Proof.
  unfold reamortize.
  destruct (PrincipalPayment.new_loan_terms lump) as [terms|];
    [|by intros; simplify_eq].
  destruct (GetMonthlyPayment _) as [m|e'|] eqn:Hm; simpl; try done.
  intros; simplify_eq. by destruct (GetMonthlyPayment_raise _ _ Hm) as [->|[->| ->]].
Qed.

Lemma apply_lump_sum_raise s e :
  apply_lump_sum s = Raise e → e ≠ IndexError.
Proof.
  unfold apply_lump_sum.
  destruct (next_lump_sum s) as [lump|]; [|done].
  case_bool_decide; [|done].
  rewrite <- (reverse_involutive (payments s)), pop_payment_reverse.
  case_bool_decide.
  - destruct (reamortize _ _ _) as [[[mp mi] mv]| |] eqn:Hr; simpl; try done.
    + by destruct (reverse (payments s)).
    + intros; simplify_eq. by eapply reamortize_raise.
  - simpl. by destruct (reverse (payments s)).
Qed.

Lemma month_raise s e :
  cursor_wf exits s → month loan exits s = Raise e → e ≠ IndexError.
Proof.
  intros Hwf. unfold month.
  destruct (check_exit_ok s Hwf) as [s1 ->]. rewrite bind_Ok.
  destruct (apply_lump_sum s1) as [s2|e'|] eqn:H2; simpl; try done.
  intros; simplify_eq. by eapply apply_lump_sum_raise.
Qed.

Lemma loop_raise fuel s e :
  cursor_wf exits s → loop loan exits fuel s = Raise e → e ≠ IndexError.
Proof.
  revert s. induction fuel as [|fuel IH]; intros s Hwf; simpl;
    case_bool_decide; try done.
  destruct (month loan exits s) as [s'|e'|] eqn:Hm; simpl; try done.
  - apply IH. by eapply month_cursor_wf.
  - intros; simplify_eq. by eapply month_raise.
Qed.

(** X6.  [LoanCalc] never raises [IndexError]: [exits[current_exit]] is
    only read while [last_exit] is false, which keeps [current_exit] below
    [len(exits)], and [payments.pop()] is only called on a non-empty list.
    This holds for every loan, budget, list of payments and list of exits,
    sorted or not. *)
Theorem LoanCalc_never_IndexError budget0 payments0 fuel :
  LoanCalc loan exits budget0 payments0 fuel ≠ Raise IndexError.
Proof.
  unfold LoanCalc.
  destruct (init loan exits budget0 payments0) as [s0|e|] eqn:Hi; simpl;
    [| |done].
  - destruct (loop loan exits fuel s0) as [s|e|] eqn:Hl; simpl; try done.
    intros ?; simplify_eq.
    by eapply loop_raise; [eapply cursor_wf_init|done|].
  - intros ?; simplify_eq. apply init_raise in Hi.
    by destruct (GetMonthlyPayment_raise _ _ Hi) as [?|[?|?]].
Qed.

End Cursor.

Section AnyExits.
Variable loan : Loan.t.
Variable exits : list Z.

Lemma emitted_ok_month s s' :
  emitted_ok exits s → month loan exits s = Ok s' → emitted_ok exits s'.
Proof.
  intros (Hwf & Hev & Hsort & Hpast) Hm.
  pose proof (month_cursor_wf _ _ _ _ Hwf Hm) as Hwf'.
  apply month_cursor in Hm
    as (Ht' & [(Hk' & Hl' & He' & Hno) | (Hl & Hex & Hk' & Hl' & He')]).
  - unfold emitted_ok. rewrite Ht', Hk', He'. split_and!; try done.
    eapply Forall_impl; [done|]. simpl. intros; lia.
  - unfold emitted_ok. rewrite Ht', Hk', He', fmap_app. simpl.
    split_and!; try done.
    + by rewrite Hev, (take_S_r _ _ _ Hex).
    + apply StronglySorted_app_2; [|done|by repeat constructor].
      intros x1 x2 Hx1 ->%list_elem_of_singleton.
      by apply (proj1 (Forall_forall _ _) Hpast).
    + apply Forall_app. split; [|apply Forall_singleton; lia].
      eapply Forall_impl; [done|]. simpl. intros; lia.
Qed.

Lemma emitted_ok_init budget0 payments0 s0 :
  init loan exits budget0 payments0 = Ok s0 → emitted_ok exits s0.
Proof.
  intros Hi. pose proof (cursor_wf_init _ _ _ _ _ Hi) as Hwf.
  apply init_fields in Hi as (_&_&_&_&_&_&_& Hk &_&_& He).
  unfold emitted_ok. rewrite Hk, He. split_and!; try done; constructor.
Qed.

(** X9.  For any list [exits], also unsorted or with repetitions: the months
    of the entries returned by [LoanCalc] are a prefix of [exits] followed by
    the month the loop ended at, they are strictly ascending, and there are
    at most [len(exits) + 1] entries.  An exit that is not larger than the
    one before it is never reached, and hides all exits after it. *)
Theorem snapshot_lengths_ascending budget0 payments0 fuel evals :
  LoanCalc loan exits budget0 payments0 fuel = Ok evals →
  ∃ (k : nat) (T : Z),
    LoanEval.length <$> evals = take k exits ++ [T]
    ∧ StronglySorted Z.lt (LoanEval.length <$> evals)
    ∧ (length evals ≤ length exits + 1)%nat.
Proof.
  unfold LoanCalc. intros H. inv_bind H. inv_bind H. simplify_eq.
  rename a into s0, a0 into s.
  apply emitted_ok_init in Ha. apply loop_rtc in Ha0 as [Hrun _].
  assert (Hs : emitted_ok exits s).
  { apply (rtc_invariant loan exits (emitted_ok exits) s0 s); [|done|done].
    intros t t' Ht [_ Hm]. by eapply emitted_ok_month. }
  destruct Hs as ([Hk _] & Hev & Hsort & Hpast).
  exists (current_exit s), (terms_paid s).
  rewrite fmap_app, Hev. simpl. split_and!; [done| |].
  - rewrite <- Hev. apply StronglySorted_app_2; [|done|by repeat constructor].
    intros x1 x2 Hx1 ->%list_elem_of_singleton.
    by apply (proj1 (Forall_forall _ _) Hpast).
  - rewrite length_app. simpl.
    rewrite <- (length_fmap LoanEval.length), Hev, length_take. lia.
Qed.

End AnyExits.

(** ** The exits only observe *)

Section ExitsObserve.
Variable loan : Loan.t.
Variables exits1 exits2 : list Z.

Local Ltac open_obs s t :=
  destruct s as [b ps mp rp tp mi mv fp nx bs ce le ip ev];
  destruct t as [b' ps' mp' rp' tp' mi' mv' fp' nx' bs' ce' le' ip' ev'];
  intros [(?&?&?&?&?&?&?&?&?&?&?) [Hwf1 Hwf2]]; simplify_eq/=.

Lemma check_exit_obs s t :
  exits_rel exits1 exits2 s t →
  rel_outcome (exits_rel exits1 exits2)
    (check_exit loan exits1 s) (check_exit loan exits2 t).
Proof.
  intros Hrel. pose proof Hrel as (Hsame & Hwf1 & Hwf2).
  destruct (check_exit_ok loan _ _ Hwf1) as [s1 H1].
  destruct (check_exit_ok loan _ _ Hwf2) as [t1 H2].
  rewrite H1, H2. simpl. split_and!.
  - apply check_exit_frame in H1 as (?&?&?&?&?&?&?&?&?&?&?).
    apply check_exit_frame in H2 as (?&?&?&?&?&?&?&?&?&?&?).
    destruct Hsame as (?&?&?&?&?&?&?&?&?&?&?).
    unfold same_loan_state. split_and!; congruence.
  - by eapply check_exit_cursor_wf.
  - by eapply check_exit_cursor_wf.
Qed.

Lemma apply_lump_sum_obs s t :
  exits_rel exits1 exits2 s t →
  rel_outcome (exits_rel exits1 exits2) (apply_lump_sum s) (apply_lump_sum t).
Proof.
  open_obs s t. unfold apply_lump_sum; simpl.
  destruct nx' as [lump|]; [|done].
  case_bool_decide; [|done].
  case_bool_decide.
  - destruct (reamortize _ _ _) as [[[mp1 mi1] mv1]| |]; simpl; try done.
    destruct (pop_payment ps') as [[nx rs]| |]; simpl; done.
  - simpl. destruct (pop_payment ps') as [[nx rs]| |]; simpl; done.
Qed.

Lemma apply_savings_obs s t :
  exits_rel exits1 exits2 s t →
  exits_rel exits1 exits2 (apply_savings s) (apply_savings t).
Proof.
  open_obs s t. unfold apply_savings; simpl. case_bool_decide; done.
Qed.

Lemma pay_month_obs s t :
  exits_rel exits1 exits2 s t →
  exits_rel exits1 exits2 (pay_month s) (pay_month t).
Proof. open_obs s t. done. Qed.

Lemma update_budget_obs s t :
  exits_rel exits1 exits2 s t →
  exits_rel exits1 exits2 (update_budget s) (update_budget t).
Proof.
  open_obs s t. unfold update_budget; simpl. case_bool_decide; done.
Qed.

Lemma month_obs s t :
  exits_rel exits1 exits2 s t →
  rel_outcome (exits_rel exits1 exits2)
    (month loan exits1 s) (month loan exits2 t).
Proof.
  intros Hst. unfold month.
  eapply rel_outcome_bind; [by apply check_exit_obs|].
  intros s1 t1 H1.
  eapply rel_outcome_bind; [by apply apply_lump_sum_obs|].
  intros s2 t2 H2. simpl.
  by apply update_budget_obs, pay_month_obs, apply_savings_obs.
Qed.

Lemma loop_obs fuel s t :
  exits_rel exits1 exits2 s t →
  rel_outcome (exits_rel exits1 exits2)
    (loop loan exits1 fuel s) (loop loan exits2 fuel t).
Proof.
  revert s t. induction fuel as [|fuel IH]; intros s t Hst; simpl;
    pose proof Hst as ((_&_&_& <- &_) &_); case_bool_decide; try done.
  eapply rel_outcome_bind; [by apply month_obs|]. auto.
Qed.

(** X10.  The exits only observe: two calls of [LoanCalc] that differ only
    in [exits] have the same outcome up to the exit entries, that is, they
    raise the same exception or return lists with the same last entry (the
    month, remaining principal, interest paid and monthly payment at which
    the loop ended). *)
Theorem exits_do_not_change_payoff budget0 payments0 fuel :
  payoff (LoanCalc loan exits1 budget0 payments0 fuel)
  = payoff (LoanCalc loan exits2 budget0 payments0 fuel).
Proof.
  unfold payoff, LoanCalc.
  destruct (GetMonthlyPayment loan) as [m|e|] eqn:Hm;
    [|unfold init; by rewrite Hm..].
  destruct (init_ok loan exits1 budget0 payments0 m Hm) as (s0 & H1 & Hm1).
  destruct (init_ok loan exits2 budget0 payments0 m Hm) as (t0 & H2 & Hm2).
  assert (Hrel : exits_rel exits1 exits2 s0 t0).
  { split_and!; [|by eapply cursor_wf_init..].
    pose proof (init_queue _ _ _ _ _ H1) as Hq1.
    pose proof (init_queue _ _ _ _ _ H2) as Hq2.
    apply init_fields in H1 as (?&?&?&?&?&?&?&?&?&?&?).
    apply init_fields in H2 as (?&?&?&?&?&?&?&?&?&?&?).
    unfold same_loan_state.
    destruct payments0; destruct Hq1, Hq2; split_and!; congruence. }
  rewrite H1, H2, !bind_Ok.
  pose proof (loop_obs fuel _ _ Hrel) as Hloop.
  destruct (loop loan exits1 fuel s0) as [s| |],
    (loop loan exits2 fuel t0) as [t| |]; simpl in *; try done;
    [|by subst].
  rewrite !last_snoc. do 2 f_equal.
  destruct Hloop as ((?&?&?&?&?&?&?&?&?&?&?) &_).
  unfold snapshot. congruence.
Qed.

End ExitsObserve.

(** ** DIRECT payments *)

Lemma pop_payment_Forall (P : PrincipalPayment.t → Prop) ps :
  Forall P ps →
  ∃ nx rest, pop_payment ps = Ok (nx, rest)
    ∧ Forall P rest ∧ (∀ p, nx = Some p → P p).
Proof.
  intros Hall. rewrite <- (reverse_involutive ps), pop_payment_reverse.
  apply Forall_reverse in Hall.
  destruct Hall as [|p q Hp Hq]; eexists _, _; split_and!; try done.
  - by apply Forall_reverse.
  - by intros ? [= <-].
Qed.

Section Direct.
Variable loan : Loan.t.
Variable exits : list Z.
Variable m : float.

Lemma check_exit_direct s s' :
  direct_inv loan m s → check_exit loan exits s = Ok s' →
  direct_inv loan m s'.
Proof.
  intros (Hn & Hps & Hm & Hi & Hv & Hf & Hev) H1.
  pose proof (check_exit_frame _ _ _ _ H1)
    as (_& Hps' & Hm' &_&_& Hi' & Hv' & Hf' & Hn' &_).
  unfold direct_inv. rewrite Hps', Hm', Hi', Hv', Hf', Hn'.
  split_and!; try done.
  apply check_exit_cases in H1 as [[-> _] | (_&_&_&_& ->)]; [done|].
  apply Forall_app. split; [done|]. by apply Forall_singleton.
Qed.

Lemma apply_lump_sum_direct s :
  direct_inv loan m s →
  ∃ s', apply_lump_sum s = Ok s' ∧ direct_inv loan m s'.
Proof.
  intros (Hn & Hps & Hm & Hi & Hv & Hf & Hev). unfold apply_lump_sum.
  destruct (next_lump_sum s) as [lump|] eqn:Hnx;
    [|eexists; split; [done|]; unfold direct_inv; by rewrite Hnx].
  case_bool_decide;
    [|eexists; split; [done|]; unfold direct_inv; by rewrite Hnx].
  rewrite bool_decide_eq_false_2 by (by rewrite (Hn lump eq_refl)).
  rewrite bind_Ok.
  destruct (pop_payment_Forall _ _ Hps) as (nx & rest & -> & Hrest & Hnx').
  rewrite bind_Ok. eexists; split; [done|].
  unfold direct_inv; simpl. by split_and!.
Qed.

Lemma apply_savings_direct s :
  direct_inv loan m s → direct_inv loan m (apply_savings s).
Proof. unfold apply_savings. by case_bool_decide. Qed.

Lemma pay_month_direct s :
  direct_inv loan m s → direct_inv loan m (pay_month s).
Proof. done. Qed.

Lemma update_budget_direct s :
  direct_inv loan m s → direct_inv loan m (update_budget s).
Proof. unfold update_budget. by case_bool_decide. Qed.

Lemma month_direct s :
  direct_inv loan m s → cursor_wf exits s →
  ∃ s', month loan exits s = Ok s' ∧ direct_inv loan m s'.
Proof.
  intros Hd Hwf. unfold month.
  destruct (check_exit_ok loan exits s Hwf) as [s1 H1]. rewrite H1, bind_Ok.
  destruct (apply_lump_sum_direct s1) as (s2 & -> & H2);
    [by eapply check_exit_direct|].
  rewrite bind_Ok. eexists; split; [done|].
  by apply update_budget_direct, pay_month_direct, apply_savings_direct.
Qed.

Lemma loop_direct fuel s :
  direct_inv loan m s → cursor_wf exits s →
  match loop loan exits fuel s with
  | Ok s' => direct_inv loan m s'
  | Raise _ => False
  | OutOfFuel => True
  end.
Proof.
  revert s. induction fuel as [|fuel IH]; intros s Hd Hwf; simpl;
    case_bool_decide; try done.
  destruct (month_direct s Hd Hwf) as (s' & Hm & Hd'). rewrite Hm, bind_Ok.
  apply IH; [done|]. by eapply month_cursor_wf.
Qed.

Lemma init_direct budget0 payments0 s0 :
  all_direct payments0 → GetMonthlyPayment loan = Ok m →
  init loan exits budget0 payments0 = Ok s0 → direct_inv loan m s0.
Proof.
  intros Hall Hm Hi.
  destruct (init_ok loan exits budget0 payments0 m Hm) as (s0' & Hi' & Hmp).
  rewrite Hi in Hi'. simplify_eq.
  pose proof (init_queue _ _ _ _ _ Hi) as Hq.
  apply init_fields in Hi as (_&_&_& Hint & Hv & Hf &_&_&_&_& He).
  unfold direct_inv. rewrite Hint, Hv, Hf, He.
  destruct Hall as [|p q Hp Hq']; destruct Hq as [-> ->];
    split_and!; try done.
  - constructor.
  - by intros ? [= <-].
  - by apply Forall_reverse.
Qed.

End Direct.

(** X13.  When every lump sum is DIRECT, the only exceptions [LoanCalc]
    raises are those of its first [GetMonthlyPayment(loan)], and every
    entry it returns carries that same monthly payment: DIRECT payments
    never change the monthly payment. *)
Theorem direct_payments_keep_payment loan exits budget0 payments0 fuel :
  all_direct payments0 →
  (∀ e, LoanCalc loan exits budget0 payments0 fuel = Raise e →
     GetMonthlyPayment loan = Raise e)
  ∧ (∀ evals, LoanCalc loan exits budget0 payments0 fuel = Ok evals →
       ∃ m, GetMonthlyPayment loan = Ok m
         ∧ Forall (λ ev, LoanEval.monthly_payments ev = m) evals).
Proof.
  intros Hall. unfold LoanCalc.
  destruct (GetMonthlyPayment loan) as [m|e0|] eqn:Hm;
    [|unfold init; rewrite Hm; split; intros ? H; simpl in H;
      by simplify_eq..].
  destruct (init_ok loan exits budget0 payments0 m Hm) as (s0 & Hi & _).
  rewrite Hi, bind_Ok.
  pose proof (loop_direct loan exits m fuel s0
                (init_direct _ _ _ _ _ _ Hall Hm Hi)
                (cursor_wf_init _ _ _ _ _ Hi)) as Hloop.
  destruct (loop loan exits fuel s0) as [s| |]; try done.
  split; [done|]. intros evals [= <-]. exists m. split; [done|].
  destruct Hloop as (_&_& Hmp &_&_&_& Hev).
  apply Forall_app. split; [done|]. by apply Forall_singleton.
Qed.

(** X5.  A loan whose amount is zero or negative is never iterated: if
    [GetMonthlyPayment(loan)] returns [m], [LoanCalc] returns exactly one
    entry, at month 0, with the amount as remaining principal, nothing paid
    ([amount - amount], which is [0.0], and [nan] only for an amount of
    minus infinity), no interest and monthly payment [m], whatever the
    budget, the payments and the exits are. *)
Theorem nonpositive_amount loan exits budget0 payments0 fuel m :
  Loan.amount loan ≤ 0 →
  GetMonthlyPayment loan = Ok m →
  LoanCalc loan exits budget0 payments0 fuel
  = Ok [LoanEval.mk (Loan.name loan) (Loan.amount loan)
          (if is_infinity (Loan.amount loan) then nan else 0) 0 0%Z m].
Proof.
  intros Ha Hm. unfold LoanCalc.
  destruct (init_ok loan exits budget0 payments0 m Hm) as (s0 & Hi & Hmp).
  rewrite Hi, bind_Ok.
  apply init_fields in Hi as (_& Hr & Ht &_&_&_&_&_&_& Hip & He).
  assert (Hloop : loop loan exits fuel s0 = Ok s0).
  { destruct fuel; simpl; rewrite bool_decide_eq_false_2; try done;
      rewrite Hr; by apply fle_0_not_flt. }
  rewrite Hloop, bind_Ok, He. unfold snapshot.
  by rewrite Hr, Ht, Hip, Hmp, (float_sub_diag_nonpos _ Ha).
Qed.

(** ** The yearly raise compounds *)

Lemma raises_0 offset : raises offset 0 = 0%nat.
Proof. unfold raises. rewrite Z.add_0_l. lia. Qed.

Lemma raises_succ offset n :
  (0 ≤ n)%Z →
  raises offset (n + 1)
  = if bool_decide ((n + 1 + offset) `mod` 12 = 0)%Z
    then S (raises offset n) else raises offset n.
Proof.
  intros Hn. unfold raises. case_bool_decide as Hmod.
  - rewrite <- Z2Nat.inj_succ.
    + f_equal. Z.div_mod_to_equations. lia.
    + Z.div_mod_to_equations. lia.
  - f_equal. Z.div_mod_to_equations. lia.
Qed.

Section Growth.
Variable loan : Loan.t.
Variable exits : list Z.

Lemma month_terms_paid s s' :
  month loan exits s = Ok s' → terms_paid s' = (terms_paid s + 1)%Z.
Proof. by intros [? _]%month_cursor. Qed.

Lemma step_growth budget0 t t' :
  growth_inv budget0 t → step loan exits t t' → growth_inv budget0 t'.
Proof.
  intros (Hpos & Hoff & Hsal & Hexp & Hinc & Hout) [_ Hm].
  unfold growth_inv.
  rewrite (month_terms_paid _ _ Hm), (month_budget _ _ _ _ Hm).
  rewrite raises_succ by done. rewrite Hoff.
  case_bool_decide; simpl; rewrite ?Hoff, ?Hsal, ?Hexp, ?Hinc, ?Hout;
    split_and!; try done; lia.
Qed.

(** X15.  In every state the loop reaches, the working budget's income is
    the caller's [monthly_income] multiplied [k] times in succession by
    [1 + salary_rate_increase / 100], and its expenses the caller's
    [monthly_expenses] multiplied [k] times by
    [1 + expenses_rate_increase / 100], every product rounded as
    [x *= f] rounds it, where [k] is the number of months [m] in
    [1 .. terms_paid] with [(m + month_offset) % 12 == 0], that is
    [(terms_paid + month_offset) // 12 - month_offset // 12]. *)
Theorem budget_compounds budget0 payments0 s0 s :
  init loan exits budget0 payments0 = Ok s0 →
  rtc (step loan exits) s0 s →
  let k := raises (Budget.month_offset budget0) (terms_paid s) in
  Budget.monthly_income (budget s)
  = compound (Budget.monthly_income budget0)
      (1 + Budget.salary_rate_increase budget0 / fl 100) k
  ∧ Budget.monthly_expenses (budget s)
    = compound (Budget.monthly_expenses budget0)
        (1 + Budget.expenses_rate_increase budget0 / fl 100) k.
Proof.
  intros Hi Hrun.
  apply init_fields in Hi as (Hb &_& Ht &_).
  assert (Hinv : growth_inv budget0 s).
  { apply (rtc_invariant loan exits (growth_inv budget0) s0 s); [|..|done].
    - apply step_growth.
    - unfold growth_inv. by rewrite Hb, Ht, raises_0. }
  by destruct Hinv as (_&_&_&_& ? & ?).
Qed.

End Growth.

(** ** Payments out of order *)

Section Stale.
Variable loan : Loan.t.
Variable exits : list Z.
Variable p : PrincipalPayment.t.
Variable rest : list PrincipalPayment.t.

Local Ltac open_stale s t :=
  destruct s as [b ps mp rp tp mi mv fp nx bs ce le ip ev];
  destruct t as [b' ps' mp' rp' tp' mi' mv' fp' nx' bs' ce' le' ip' ev'];
  intros (?&?&?&?&?&?&?&?&?&?&?&?& Hwf1 & Hwf2 & Hpend & Hlate & Hlast);
  simplify_eq/=.

Lemma check_exit_stale c s t :
  stale_rel p rest c s t →
  rel_outcome (stale_rel p rest c)
    (check_exit loan exits s) (check_exit loan exits t).
Proof.
  open_stale s t. unfold check_exit, index; simpl.
  destruct le'; simpl; [by split_and!|].
  destruct (exits !! ce'); simpl; [|done].
  case_bool_decide; by split_and!.
Qed.

Lemma apply_savings_stale c s t :
  stale_rel p rest c s t →
  stale_rel p rest c (apply_savings s) (apply_savings t).
Proof.
  open_stale s t. unfold apply_savings; simpl.
  case_bool_decide; by split_and!.
Qed.

Lemma pay_month_stale s t :
  stale_rel p rest 1 s t → stale_rel p rest 0 (pay_month s) (pay_month t).
Proof.
  open_stale s t. unfold stale_rel, pay_month; simpl.
  split_and!; try done. intros Hnil. specialize (Hlate Hnil). lia.
Qed.

Lemma update_budget_stale c s t :
  stale_rel p rest c s t →
  stale_rel p rest c (update_budget s) (update_budget t).
Proof.
  open_stale s t. unfold update_budget; simpl.
  case_bool_decide; by split_and!.
Qed.

Lemma apply_lump_sum_stale s t :
  stale_rel p rest 0 s t →
  rel_outcome (stale_rel p rest 1) (apply_lump_sum s) (apply_lump_sum t).
Proof.
  open_stale s t. unfold pending in *; simpl in *.
  unfold apply_lump_sum; simpl.
  destruct nx' as [x|]; simpl in *.
  - (* the two runs have the same payment pending *)
    destruct nx as [x'|]; simpl in *; [|by rewrite Hwf1 in Hpend].
    injection Hpend as -> Hps.
    case_bool_decide as Hdue.
    2: { unfold stale_rel, pending, queue_wf; simpl.
         split_and!; try done. by rewrite Hps. }
    destruct (if bool_decide (PrincipalPayment.type x = REAMORTIZING)
              then reamortize x (rp' - PrincipalPayment.amount x) tp'
              else Ok (mp', mi', mv')) as [[[mp1 mi1] mv1]| |]; simpl;
      try done.
    rewrite <- (reverse_involutive ps), <- (reverse_involutive ps'), Hps.
    rewrite !pop_payment_reverse.
    destruct (reverse ps') as [|y q] eqn:Hq; simpl.
    + unfold stale_rel, pending, queue_wf; simpl.
      split_and!; try done.
      * by rewrite reverse_involutive.
      * intros _. specialize (Hlast x eq_refl). lia.
    + unfold stale_rel, pending, queue_wf; simpl.
      split_and!; try done.
      * by rewrite !reverse_involutive.
      * intros p1 Hp1. apply Hlast. rewrite <- Hp1.
        by rewrite reverse_involutive.
  - (* only the late payment is left *)
    pose proof (Hwf2 eq_refl) as Hnil. simpl in Hnil. subst ps'.
    simpl in *.
    destruct nx as [x'|]; simpl in *; [|by rewrite Hwf1 in Hpend].
    injection Hpend as -> Hps.
    rewrite bool_decide_eq_false_2 by (specialize (Hlate eq_refl); lia).
    simpl. unfold stale_rel, pending, queue_wf; simpl.
    split_and!; try done; [by rewrite Hps|].
    intros _. specialize (Hlate eq_refl). lia.
Qed.

Lemma month_stale s t :
  stale_rel p rest 0 s t →
  rel_outcome (stale_rel p rest 0) (month loan exits s) (month loan exits t).
Proof.
  intros Hst. unfold month.
  eapply rel_outcome_bind; [by apply check_exit_stale|].
  intros s1 t1 H1.
  eapply rel_outcome_bind; [by apply apply_lump_sum_stale|].
  intros s2 t2 H2. simpl.
  by apply update_budget_stale, pay_month_stale, apply_savings_stale.
Qed.

Lemma loop_stale fuel s t :
  stale_rel p rest 0 s t →
  rel_outcome (stale_rel p rest 0)
    (loop loan exits fuel s) (loop loan exits fuel t).
Proof.
  revert s t. induction fuel as [|fuel IH]; intros s t Hst; simpl;
    pose proof Hst as (_&_& <- &_); case_bool_decide; try done.
  eapply rel_outcome_bind; [by apply month_stale|]. auto.
Qed.

End Stale.

(** X12.  Lump sums are taken in list order and only when
    [time == terms_paid]: a payment whose [time] is not larger than that of
    the payment before it in the list (or is negative, for the first one) is
    never applied, and neither is any payment after it.  [LoanCalc] on
    [front ++ p :: rest] has the outcome of [LoanCalc] on [front] alone.
    In particular, of two payments scheduled for the same month only the
    first is applied. *)
Theorem late_payments_are_dropped loan exits budget0 front p rest fuel :
  match last front with
  | Some p1 => (PrincipalPayment.time p ≤ PrincipalPayment.time p1)%Z
  | None => (PrincipalPayment.time p < 0)%Z
  end →
  LoanCalc loan exits budget0 (front ++ p :: rest) fuel
  = LoanCalc loan exits budget0 front fuel.
Proof.
  intros Hlate. unfold LoanCalc.
  destruct (GetMonthlyPayment loan) as [m|e|] eqn:Hm;
    [|unfold init; by rewrite Hm..].
  destruct (init_ok loan exits budget0 (front ++ p :: rest) m Hm)
    as (s0 & H1 & Hm1).
  destruct (init_ok loan exits budget0 front m Hm) as (t0 & H2 & Hm2).
  assert (Hrel : stale_rel p rest 0 s0 t0).
  { pose proof (init_queue _ _ _ _ _ H1) as Hq1.
    pose proof (init_queue _ _ _ _ _ H2) as Hq2.
    apply init_fields in H1 as (?&?& Ht &?&?&?&?&?&?&?&?).
    apply init_fields in H2 as (?&?&?&?&?&?&?&?&?&?&?).
    unfold stale_rel, queue_wf, pending.
    destruct front as [|x q]; simpl in *.
    - destruct Hq1 as [-> ->], Hq2 as [-> ->]. simpl.
      rewrite reverse_involutive, Ht.
      split_and!; try congruence; try done.
    - destruct Hq1 as [-> ->], Hq2 as [-> ->]. simpl.
      rewrite !reverse_involutive.
      split_and!; try congruence; try done.
      intros p1 Hp1. by rewrite Hp1 in Hlate. }
  rewrite H1, H2, !bind_Ok.
  pose proof (loop_stale loan exits p rest fuel _ _ Hrel) as Hloop.
  destruct (loop loan exits fuel s0) as [s| |],
    (loop loan exits fuel t0) as [t| |]; simpl in *; try done;
    [|by subst].
  destruct Hloop as (?&?&?&?&?&?&?&?&?&?&?&?&_).
  unfold snapshot. do 2 f_equal; [done|]. f_equal; congruence.
Qed.

(** ** Reamortizing payments without terms *)

Section Terms.
Variable loan : Loan.t.
Variable exits : list Z.

Lemma reamortize_TypeError lump remaining tp :
  missing_terms lump = false →
  PrincipalPayment.type lump = REAMORTIZING →
  reamortize lump remaining tp ≠ Raise TypeError.
Proof.
  unfold missing_terms, reamortize. intros Hmiss Hty.
  rewrite bool_decide_eq_true_2 in Hmiss by done.
  destruct (PrincipalPayment.new_loan_terms lump) as [terms|]; [|done].
  destruct (GetMonthlyPayment _) as [m|e'|] eqn:Hm; simpl; try done.
  intros ?; simplify_eq. by destruct (GetMonthlyPayment_raise _ _ Hm) as [?|[?|?]].
Qed.

Lemma apply_lump_sum_terms s :
  terms_inv s →
  apply_lump_sum s ≠ Raise TypeError
  ∧ (∀ s', apply_lump_sum s = Ok s' → terms_inv s').
Proof.
  intros [Hps Hnx]. unfold apply_lump_sum.
  destruct (next_lump_sum s) as [lump|] eqn:Hn;
    [|split; [done|]; intros ? [= <-]; unfold terms_inv; by rewrite Hn].
  case_bool_decide;
    [|split; [done|]; intros ? [= <-]; unfold terms_inv; by rewrite Hn].
  destruct (pop_payment_Forall _ _ Hps) as (nx & rest & -> & Hrest & Hnx').
  case_bool_decide as Hty.
  - pose proof (reamortize_TypeError lump
      (remaining_principal s - PrincipalPayment.amount lump) (terms_paid s)
      (Hnx lump eq_refl) Hty) as Hre.
    destruct (reamortize _ _ _) as [[[mp mi] mv]|e|]; simpl.
    + split; [done|]. by intros ? [= <-].
    + split; [congruence|done].
    + done.
  - simpl. split; [done|]. by intros ? [= <-].
Qed.

Lemma month_terms s :
  cursor_wf exits s → terms_inv s →
  month loan exits s ≠ Raise TypeError
  ∧ (∀ s', month loan exits s = Ok s' → terms_inv s').
Proof.
  intros Hwf Hinv. unfold month.
  destruct (check_exit_ok loan exits s Hwf) as [s1 H1]. rewrite H1, bind_Ok.
  apply check_exit_frame in H1 as (_& Hps &_&_&_&_&_&_& Hn &_).
  assert (Hinv1 : terms_inv s1) by (unfold terms_inv; by rewrite Hps, Hn).
  destruct (apply_lump_sum_terms s1 Hinv1) as [Hne Hok].
  destruct (apply_lump_sum s1) as [s2|e|]; simpl; [|split; congruence|done].
  split; [done|]. intros ? [= <-]. specialize (Hok s2 eq_refl).
  destruct (apply_savings_frame s2) as (_& Hp3 &_&_&_&_&_& Hn3 &_).
  destruct (update_budget_frame (pay_month (apply_savings s2)))
    as (Hp4 &_&_&_&_&_&_& Hn4 &_).
  unfold terms_inv. rewrite Hp4, Hn4. cbn [pay_month payments next_lump_sum].
  by rewrite Hp3, Hn3.
Qed.

Lemma loop_terms fuel s :
  cursor_wf exits s → terms_inv s →
  loop loan exits fuel s ≠ Raise TypeError.
Proof.
  revert s. induction fuel as [|fuel IH]; intros s Hwf Hinv; simpl;
    case_bool_decide; try done.
  destruct (month_terms s Hwf Hinv) as [Hne Hok].
  destruct (month loan exits s) as [s'|e|] eqn:Hm; simpl; [|congruence|done].
  apply IH; [by eapply month_cursor_wf|by apply Hok].
Qed.

End Terms.

(** ** A payment that is not due yet *)

Section Waiting.
Variable loan : Loan.t.
Variable exits : list Z.
Variable p : PrincipalPayment.t.

Local Ltac open_waiting s t :=
  destruct s as [b ps mp rp tp mi mv fp nx bs ce le ip ev];
  destruct t as [b' ps' mp' rp' tp' mi' mv' fp' nx' bs' ce' le' ip' ev'];
  intros (?&?&?&?&?&?&?&?&?&?&?&?&?&?);
  simplify_eq/=.

Lemma month_waiting s t :
  waiting_rel p s t → (terms_paid s < PrincipalPayment.time p)%Z →
  rel_outcome (waiting_rel p) (month loan exits s) (month loan exits t).
Proof.
  intros Hrel Hlt. unfold month.
  eapply (rel_outcome_bind
    (λ a b, waiting_rel p a b ∧ (terms_paid a < PrincipalPayment.time p)%Z)).
  { revert Hrel Hlt. open_waiting s t. intros Hlt.
    unfold check_exit, index; simpl.
    destruct le'; simpl; [by split_and!|].
    destruct (exits !! ce'); simpl; [|done].
    case_bool_decide; by split_and!. }
  intros s1 t1 [H1 Hlt1].
  eapply (rel_outcome_bind (waiting_rel p)).
  { revert H1 Hlt1. open_waiting s1 t1. intros Hlt1.
    unfold apply_lump_sum; simpl.
    rewrite bool_decide_eq_false_2 by lia. by split_and!. }
  intros s2 t2. open_waiting s2 t2.
  unfold update_budget, pay_month, apply_savings; simpl.
  repeat case_bool_decide; by split_and!.
Qed.

Lemma after_months_waiting n s t t' :
  waiting_rel p s t →
  (terms_paid s + Z.of_nat n ≤ PrincipalPayment.time p)%Z →
  at_month loan exits t n t' →
  ∃ s', at_month loan exits s n s' ∧ waiting_rel p s' t'.
Proof.
  revert s t. induction n as [|n IH]; intros s t Hrel Hle [Ht Hpos].
  - simpl in Ht. simplify_eq. exists s. split; [|done]. split; [done|].
    by destruct Hrel as (_&_& -> &_).
  - simpl in Ht. case_bool_decide as Hg.
    2: { simplify_eq. done. }
    pose proof (month_waiting s t Hrel ltac:(lia)) as Hm.
    destruct (month loan exits t) as [t1|e|] eqn:Hmt; try done.
    destruct (month loan exits s) as [s1|e|] eqn:Hms; try done.
    simpl in Hm, Ht.
    destruct (IH s1 t1 Hm) as (s' & [Hs' Hpos'] & Hrel').
    { rewrite (month_terms_paid _ _ _ _ Hms). lia. }
    { done. }
    exists s'. split; [|done]. split; [|done]. simpl.
    destruct Hrel as (_&_& Hr &_). rewrite bool_decide_eq_true_2 by congruence.
    by rewrite Hms.
Qed.

Lemma after_months_cursor_wf n s s' :
  cursor_wf exits s → after_months loan exits n s = Ok s' →
  cursor_wf exits s'.
Proof.
  intros Hwf Hn. apply after_months_rtc in Hn.
  eapply (rtc_invariant loan exits (cursor_wf exits)); [|done..].
  intros t t' Ht [_ Hm]. by eapply month_cursor_wf.
Qed.

Lemma after_months_terms_paid n s s' :
  at_month loan exits s n s' → terms_paid s' = (terms_paid s + Z.of_nat n)%Z.
Proof.
  revert s. induction n as [|n IH]; intros s [Hn Hpos]; simpl in Hn.
  - simplify_eq. lia.
  - case_bool_decide; [|by simplify_eq].
    destruct (month loan exits s) as [s1|e|] eqn:Hm; try done. simpl in Hn.
    rewrite (IH s1), (month_terms_paid _ _ _ _ Hm) by done. lia.
Qed.

Lemma loop_from fuel n s s' :
  after_months loan exits n s = Ok s' → (n ≤ fuel)%nat →
  0 < remaining_principal s' →
  loop loan exits fuel s = loop loan exits (fuel - n) s'.
Proof.
  revert fuel s. induction n as [|n IH]; intros fuel s Hn Hle Hpos;
    simpl in Hn.
  - simplify_eq. by rewrite Nat.sub_0_r.
  - case_bool_decide as Hg; [|by simplify_eq].
    destruct fuel as [|fuel]; [lia|]. simpl.
    rewrite bool_decide_eq_true_2 by done.
    destruct (month loan exits s) as [s1|e|] eqn:Hm; try done. simpl in *.
    apply IH; [done|lia|done].
Qed.

End Waiting.

(** ** Snapshots and the schedule *)

Section Entries.
Variable loan : Loan.t.
Variable exits : list Z.

Lemma after_months_snoc n s0 s s' :
  after_months loan exits n s0 = Ok s → step loan exits s s' →
  after_months loan exits (S n) s0 = Ok s'.
Proof.
  intros Hn [Hpos Hm]. revert s0 Hn.
  induction n as [|n IH]; intros s0 Hn.
  - simpl in Hn. simplify_eq. simpl.
    by rewrite bool_decide_eq_true_2, Hm by done.
  - simpl in Hn. case_bool_decide as Hg; [|by simplify_eq].
    destruct (month loan exits s0) as [s1|e|] eqn:Hm0; try done.
    simpl in Hn. specialize (IH s1 Hn).
    change (after_months loan exits (S (S n)) s0)
      with (if bool_decide (0 < remaining_principal s0)
            then month loan exits s0 ≫= after_months loan exits (S n)
            else Ok s0).
    by rewrite bool_decide_eq_true_2, Hm0 by done.
Qed.

Lemma snapshot_on_schedule s0 s :
  (0 ≤ terms_paid s)%Z →
  after_months loan exits (Z.to_nat (terms_paid s)) s0 = Ok s →
  evals_on_schedule loan exits s0 [snapshot loan s].
Proof.
  intros Hnn Hs. apply Forall_singleton. by exists s.
Qed.

Lemma step_on_schedule s0 s s' :
  ((0 ≤ terms_paid s)%Z
   ∧ after_months loan exits (Z.to_nat (terms_paid s)) s0 = Ok s
   ∧ evals_on_schedule loan exits s0 (loan_evals s)) →
  step loan exits s s' →
  (0 ≤ terms_paid s')%Z
  ∧ after_months loan exits (Z.to_nat (terms_paid s')) s0 = Ok s'
  ∧ evals_on_schedule loan exits s0 (loan_evals s').
Proof.
  intros (Hnn & Hs & Hev) Hstep. pose proof Hstep as [_ Hm].
  rewrite (month_terms_paid _ _ _ _ Hm). split_and!; [lia| |].
  - replace (Z.to_nat (terms_paid s + 1)) with (S (Z.to_nat (terms_paid s)))
      by lia.
    by eapply after_months_snoc.
  - destruct (month_loan_evals _ _ _ _ Hm) as [-> | ->]; [done|].
    apply Forall_app. split; [done|]. by apply snapshot_on_schedule.
Qed.

End Entries.

(** X7.  [LoanCalc] raises [TypeError] only if the list of payments
    contains a REAMORTIZING payment whose [new_loan_terms] is [None] (the
    [dataclasses.replace(None)] of line 165). *)
Theorem TypeError_needs_missing_terms loan exits budget0 payments0 fuel :
  LoanCalc loan exits budget0 payments0 fuel = Raise TypeError →
  Exists (λ p, missing_terms p = true) payments0.
Proof.
  intros Hraise.
  destruct (decide (Exists (λ p, missing_terms p = true) payments0))
    as [|Hnone]; [done|exfalso].
  apply not_Exists_Forall in Hnone; [|intros ?; apply _].
  assert (Hall : Forall (λ p, missing_terms p = false) payments0).
  { eapply Forall_impl; [done|]. simpl. intros p Hp.
    by destruct (missing_terms p). }
  revert Hraise. unfold LoanCalc.
  destruct (init loan exits budget0 payments0) as [s0|e|] eqn:Hi; simpl;
    [| |done].
  - destruct (loop loan exits fuel s0) as [s|e|] eqn:Hl; simpl; try done.
    intros ?; simplify_eq. revert Hl. apply loop_terms.
    + by eapply cursor_wf_init.
    + pose proof (init_queue _ _ _ _ _ Hi) as Hq.
      destruct Hall as [|p q Hp Hq']; destruct Hq as [Hn Hps];
        unfold terms_inv; rewrite Hn, Hps; split; try done.
      * by apply Forall_reverse.
      * by intros ? [= <-].
  - intros ?; simplify_eq. apply init_raise in Hi.
    by destruct (GetMonthlyPayment_raise _ _ Hi) as [?|[?|?]].
Qed.

(** X8.  A REAMORTIZING payment without [new_loan_terms] at the head of the
    list makes [LoanCalc] raise [TypeError], in the month the payment is due
    and not before: if the loan alone still owes a positive principal after
    [n] months and the payment is due at month [n], the call raises
    [TypeError] once it is given more than [n] iterations. *)
Theorem missing_terms_raise_when_due loan exits budget0 p rest n fuel rp :
  missing_terms p = true →
  PrincipalPayment.time p = Z.of_nat n →
  trajectory loan exits budget0 [] n = Ok rp → 0 < rp →
  (n < fuel)%nat →
  LoanCalc loan exits budget0 (p :: rest) fuel = Raise TypeError.
Proof.
  intros Hmiss Htime Htraj Hpos Hfuel. unfold trajectory in Htraj.
  destruct (init loan exits budget0 []) as [t0|e|] eqn:Hi0; try done.
  rewrite bind_Ok in Htraj.
  destruct (after_months loan exits n t0) as [t|e|] eqn:Ht; try done.
  simpl in Htraj. simplify_eq.
  assert (Hm : ∃ m, GetMonthlyPayment loan = Ok m).
  { unfold init in Hi0.
    destruct (GetMonthlyPayment loan); try done. by eexists. }
  destruct Hm as [m Hm].
  destruct (init_ok loan exits budget0 (p :: rest) m Hm) as (s0 & Hi & Hms).
  assert (Hrel : waiting_rel p s0 t0).
  { pose proof (init_queue _ _ _ _ _ Hi) as [Hq1 _].
    pose proof (init_queue _ _ _ _ _ Hi0) as [Hq2 _].
    destruct (init_ok loan exits budget0 [] m Hm) as (t0' & Hi0' & Hmt).
    rewrite Hi0 in Hi0'. simplify_eq.
    apply init_fields in Hi as (?&?&?&?&?&?&?&?&?&?&?).
    apply init_fields in Hi0 as (?&?&?&?&?&?&?&?&?&?&?).
    unfold waiting_rel. split_and!; congruence. }
  pose proof (cursor_wf_init _ _ _ _ _ Hi) as Hwf0.
  assert (Ht0 : terms_paid s0 = 0%Z).
  { by apply init_fields in Hi as (_&_& ? &_). }
  destruct (after_months_waiting loan exits p n s0 t0 t Hrel)
    as (s & [Hs Hspos] & Hrel'); [lia|done|].
  pose proof (after_months_terms_paid _ _ _ _ _ (conj Hs Hspos)) as Htp.
  pose proof (after_months_cursor_wf _ _ _ _ _ Hwf0 Hs) as Hwf.
  unfold LoanCalc. rewrite Hi, bind_Ok.
  rewrite (loop_from loan exits fuel n s0 s Hs) by (done || lia).
  destruct (fuel - n)%nat as [|k] eqn:Hk; [lia|]. simpl.
  rewrite bool_decide_eq_true_2 by done.
  unfold month.
  destruct (check_exit_ok loan exits s Hwf) as [s1 H1]. rewrite H1, bind_Ok.
  apply check_exit_frame in H1 as (_&_&_&_& Ht1 &_&_&_& Hn1 &_).
  destruct Hrel' as (_&_&_&_&_&_&_&_&_&_&_&_& Hnx &_).
  unfold apply_lump_sum. rewrite Hn1, Hnx, Ht1.
  rewrite bool_decide_eq_true_2 by lia.
  unfold missing_terms in Hmiss. apply andb_prop in Hmiss as [Hty Hnone].
  apply bool_decide_eq_true_1 in Hty.
  rewrite bool_decide_eq_true_2 by done. unfold reamortize.
  by destruct (PrincipalPayment.new_loan_terms p).
Qed.

(** X11.  Every entry [LoanCalc] returns, for an exit or for the payoff,
    has a non-negative month [length], and its [principal_remaining] is the
    remaining principal of the same call after [length] months. *)
Theorem entries_on_schedule loan exits budget0 payments0 fuel evals ev :
  LoanCalc loan exits budget0 payments0 fuel = Ok evals →
  ev ∈ evals →
  (0 ≤ LoanEval.length ev)%Z
  ∧ trajectory loan exits budget0 payments0 (Z.to_nat (LoanEval.length ev))
    = Ok (LoanEval.principal_remaining ev).
Proof.
  unfold LoanCalc, trajectory. intros Hcalc Hin.
  apply bind_Ok_inv in Hcalc as (s0 & Hi & Hcalc).
  apply bind_Ok_inv in Hcalc as (s & Hl & Hcalc).
  rewrite Hi, bind_Ok. simplify_eq.
  apply loop_rtc in Hl as [Hrtc _].
  assert (Hinv : (0 ≤ terms_paid s)%Z
    ∧ after_months loan exits (Z.to_nat (terms_paid s)) s0 = Ok s
    ∧ evals_on_schedule loan exits s0 (loan_evals s)).
  { eapply (rtc_invariant loan exits (λ s, (0 ≤ terms_paid s)%Z
      ∧ after_months loan exits (Z.to_nat (terms_paid s)) s0 = Ok s
      ∧ evals_on_schedule loan exits s0 (loan_evals s))); [|..|done].
    - intros t t'. apply step_on_schedule.
    - apply init_fields in Hi as (_&_& Ht &_&_&_&_&_&_&_& Hev).
      rewrite Ht, Hev. split_and!; [done|done|constructor]. }
  destruct Hinv as (Hnn & Hs & Hev).
  apply elem_of_app in Hin as [Hin | ->%list_elem_of_singleton].
  - unfold evals_on_schedule in Hev. rewrite Forall_forall in Hev.
    destruct (Hev _ Hin) as (sn & Hsn & Hrp &_).
    split.
    + (* lengths are months of the run *)
      clear -Hrtc Hi Hin.
      assert (Hlen : Forall (λ ev, (0 ≤ LoanEval.length ev)%Z) (loan_evals s)
                     ∧ (0 ≤ terms_paid s)%Z).
      { eapply (rtc_invariant loan exits (λ s,
          Forall (λ ev, (0 ≤ LoanEval.length ev)%Z) (loan_evals s)
          ∧ (0 ≤ terms_paid s)%Z)); [|..|done].
        - intros t t' [Hf Ht] [_ Hm].
          rewrite (month_terms_paid _ _ _ _ Hm). split; [|lia].
          destruct (month_loan_evals _ _ _ _ Hm) as [-> | ->]; [done|].
          apply Forall_app. split; [done|]. by apply Forall_singleton.
        - apply init_fields in Hi as (_&_& Ht &_&_&_&_&_&_&_& Hev).
          rewrite Ht, Hev. split; [constructor|done]. }
      destruct Hlen as [Hlen _]. rewrite Forall_forall in Hlen. by apply Hlen.
    + by rewrite Hsn, Hrp.
  - simpl. split; [done|]. by rewrite Hs.
Qed.

(** ** The fields of the new terms that are not read *)

Lemma GetMonthlyPayment_reads (a b : Loan.t) :
  Loan.amount a = Loan.amount b → Loan.rate a = Loan.rate b →
  Loan.term a = Loan.term b →
  GetMonthlyPayment a = GetMonthlyPayment b.
Proof. unfold GetMonthlyPayment. by intros -> -> ->. Qed.

Lemma reamortize_same p q remaining tp :
  same_payment p q → PrincipalPayment.type p = REAMORTIZING →
  reamortize p remaining tp = reamortize q remaining tp.
Proof.
  intros (_&_&_& Hterms) Hty. specialize (Hterms Hty). unfold reamortize.
  destruct (PrincipalPayment.new_loan_terms p) as [a|],
    (PrincipalPayment.new_loan_terms q) as [b|]; try done.
  destruct Hterms as (Hr & Ht & Hv).
  rewrite (GetMonthlyPayment_reads (Loan.set_amount remaining a)
             (Loan.set_amount remaining b)) by done.
  simpl. by rewrite Hr, Hv.
Qed.

Lemma pop_payment_same ps qs :
  Forall2 same_payment ps qs →
  rel_outcome (λ a b, option_Forall2 same_payment a.1 b.1
                      ∧ Forall2 same_payment a.2 b.2)
    (pop_payment ps) (pop_payment qs).
Proof.
  intros Hall. apply Forall2_reverse in Hall.
  rewrite <- (reverse_involutive ps), <- (reverse_involutive qs).
  rewrite !pop_payment_reverse.
  destruct Hall as [|p q ps' qs' Hp Hrest]; simpl.
  - split; constructor.
  - split; [by constructor|]. by apply Forall2_reverse.
Qed.

Section ReadTerms.
Variable loan : Loan.t.
Variable exits : list Z.

Local Ltac open_payments s t :=
  destruct s as [b ps mp rp tp mi mv fp nx bs ce le ip ev];
  destruct t as [b' ps' mp' rp' tp' mi' mv' fp' nx' bs' ce' le' ip' ev'];
  intros (?&?&?&?&?&?&?&?&?&?&?&?& Hps & Hnx);
  simplify_eq/=.

Lemma check_exit_payments s t :
  payments_rel s t →
  rel_outcome payments_rel (check_exit loan exits s) (check_exit loan exits t).
Proof.
  open_payments s t. unfold check_exit, index; simpl.
  destruct le'; simpl; [by split_and!|].
  destruct (exits !! ce'); simpl; [|done].
  case_bool_decide; by split_and!.
Qed.

Lemma apply_lump_sum_payments s t :
  payments_rel s t →
  rel_outcome payments_rel (apply_lump_sum s) (apply_lump_sum t).
Proof.
  open_payments s t. unfold apply_lump_sum; simpl.
  destruct Hnx as [p q Hpq|]; [|by split_and!; try constructor].
  pose proof Hpq as (Hty & Ham & Hti & Hterms).
  rewrite <- Hti, <- Hty, <- Ham.
  case_bool_decide as Hdue; [|by split_and!; try constructor].
  pose proof (pop_payment_same _ _ Hps) as Hpop.
  assert (Hre : (if bool_decide (PrincipalPayment.type p = REAMORTIZING)
                 then reamortize p (rp' - PrincipalPayment.amount p) tp'
                 else Ok (mp', mi', mv'))
                = (if bool_decide (PrincipalPayment.type p = REAMORTIZING)
                   then reamortize q (rp' - PrincipalPayment.amount p) tp'
                   else Ok (mp', mi', mv'))).
  { case_bool_decide; [|done]. by apply reamortize_same. }
  rewrite <- Hre.
  destruct (if bool_decide (PrincipalPayment.type p = REAMORTIZING)
            then reamortize p (rp' - PrincipalPayment.amount p) tp'
            else Ok (mp', mi', mv')) as [[[mp1 mi1] mv1]| |]; simpl;
    try done.
  destruct (pop_payment ps) as [[n1 r1]| |],
    (pop_payment ps') as [[n2 r2]| |]; simpl in *; try done.
  destruct Hpop. by split_and!.
Qed.

Lemma month_payments s t :
  payments_rel s t →
  rel_outcome payments_rel (month loan exits s) (month loan exits t).
Proof.
  intros Hrel. unfold month.
  eapply rel_outcome_bind; [by apply check_exit_payments|].
  intros s1 t1 H1.
  eapply rel_outcome_bind; [by apply apply_lump_sum_payments|].
  intros s2 t2. open_payments s2 t2.
  unfold update_budget, pay_month, apply_savings; simpl.
  repeat case_bool_decide; by split_and!.
Qed.

Lemma loop_payments fuel s t :
  payments_rel s t →
  rel_outcome payments_rel (loop loan exits fuel s) (loop loan exits fuel t).
Proof.
  revert s t. induction fuel as [|fuel IH]; intros s t Hrel; simpl;
    pose proof Hrel as (_&_& <- &_); case_bool_decide; try done.
  eapply rel_outcome_bind; [by apply month_payments|]. auto.
Qed.

End ReadTerms.

(** X16.  [LoanCalc] does not read the name, the amount or the fixed period
    of a payment's [new_loan_terms], nor the [new_loan_terms] of a DIRECT
    payment: two calls whose payment lists agree, payment by payment, on the
    type, the amount, the time and, for REAMORTIZING payments, on the rate,
    the term and the variable rate of the new terms (present in both or in
    neither) have the same outcome.  The shifted fixed period of line 170
    is written to the copy and never read. *)
Theorem unread_payment_fields loan exits budget0 payments1 payments2 fuel :
  Forall2 same_payment payments1 payments2 →
  LoanCalc loan exits budget0 payments1 fuel
  = LoanCalc loan exits budget0 payments2 fuel.
Proof.
  intros Hall. unfold LoanCalc.
  destruct (GetMonthlyPayment loan) as [m|e|] eqn:Hm;
    [|unfold init; by rewrite Hm..].
  destruct (init_ok loan exits budget0 payments1 m Hm) as (s0 & H1 & Hm1).
  destruct (init_ok loan exits budget0 payments2 m Hm) as (t0 & H2 & Hm2).
  assert (Hrel : payments_rel s0 t0).
  { pose proof (init_queue _ _ _ _ _ H1) as Hq1.
    pose proof (init_queue _ _ _ _ _ H2) as Hq2.
    apply init_fields in H1 as (?&?&?&?&?&?&?&?&?&?&?).
    apply init_fields in H2 as (?&?&?&?&?&?&?&?&?&?&?).
    unfold payments_rel.
    destruct Hall as [|p q ps qs Hp Hrest];
      destruct Hq1 as [-> ->], Hq2 as [-> ->];
      split_and!; try congruence; try (by constructor).
    by apply Forall2_reverse. }
  rewrite H1, H2, !bind_Ok.
  pose proof (loop_payments loan exits fuel _ _ Hrel) as Hloop.
  destruct (loop loan exits fuel s0) as [s| |],
    (loop loan exits fuel t0) as [t| |]; simpl in *; try done;
    [|by subst].
  destruct Hloop as (?&?&?&?&?&?&?&?&?&?&?&?&_).
  unfold snapshot. do 2 f_equal; [done|]. f_equal; congruence.
Qed.

(** ** The properties on the examples *)

Lemma GetMonthlyPayment_zero_term_witness :
  GetMonthlyPayment ex_loan_zero_term = Raise ZeroDivisionError.
Proof.
  apply (GetMonthlyPayment_zero_term ex_loan_zero_term). reflexivity.
Defined.

Lemma nonpositive_amount_witness :
  LoanCalc ex_loan_paid [0%Z] ex_budget [ex_direct] 0
  = Ok [LoanEval.mk (Loan.name ex_loan_paid) (Loan.amount ex_loan_paid)
          0 0 0%Z 0].
Proof.
  apply (nonpositive_amount ex_loan_paid [0%Z] ex_budget [ex_direct] 0 0);
    [run|run].
Defined.

Lemma TypeError_needs_missing_terms_witness :
  LoanCalc ex_loan [] ex_budget [ex_no_terms] 10 = Raise TypeError
  ∧ Exists (λ p, missing_terms p = true) [ex_no_terms].
Proof.
  split; [run|].
  apply (TypeError_needs_missing_terms ex_loan [] ex_budget [ex_no_terms] 10).
  run.
Defined.

Lemma missing_terms_raise_when_due_witness :
  trajectory ex_loan [] ex_budget [] 1 = Ok (fl 6)
  ∧ LoanCalc ex_loan [] ex_budget [ex_no_terms; ex_direct] 2
    = Raise TypeError.
Proof.
  split; [run|].
  apply (missing_terms_raise_when_due ex_loan [] ex_budget ex_no_terms
           [ex_direct] 1 2 (fl 6)); [run|run|run|run|lia].
Defined.

Lemma snapshot_lengths_ascending_witness :
  ∃ evals,
    LoanCalc ex_loan [2; 1]%Z ex_budget [] 10 = Ok evals
    ∧ LoanEval.length <$> evals = [2; 3]%Z
    ∧ ∃ (k : nat) (T : Z),
        LoanEval.length <$> evals = take k [2; 1]%Z ++ [T]
        ∧ StronglySorted Z.lt (LoanEval.length <$> evals)
        ∧ (length evals ≤ length [2; 1]%Z + 1)%nat.
Proof.
  eexists. split; [run|]. split; [reflexivity|].
  apply (snapshot_lengths_ascending ex_loan [2; 1]%Z ex_budget [] 10).
  run.
Defined.

Lemma entries_on_schedule_witness :
  ∃ evals ev,
    LoanCalc ex_loan [1%Z] ex_budget [ex_direct] 10 = Ok evals
    ∧ evals !! 0%nat = Some ev
    ∧ (0 ≤ LoanEval.length ev)%Z
    ∧ trajectory ex_loan [1%Z] ex_budget [ex_direct]
        (Z.to_nat (LoanEval.length ev))
      = Ok (LoanEval.principal_remaining ev).
Proof.
  eexists _, _. split; [run|]. split; [reflexivity|].
  eapply (entries_on_schedule ex_loan [1%Z] ex_budget [ex_direct] 10);
    [run|].
  constructor.
Defined.

Lemma late_payments_are_dropped_witness :
  (PrincipalPayment.time ex_same_month ≤ PrincipalPayment.time ex_direct)%Z
  ∧ LoanCalc ex_loan [] ex_budget ([ex_direct] ++ ex_same_month :: [ex_direct])
      10
    = LoanCalc ex_loan [] ex_budget [ex_direct] 10.
Proof.
  split; [run|].
  apply (late_payments_are_dropped ex_loan [] ex_budget [ex_direct]
           ex_same_month [ex_direct] 10).
  simpl. lia.
Defined.

Lemma direct_payments_keep_payment_witness :
  all_direct [ex_direct; ex_same_month]
  ∧ (∀ e, LoanCalc ex_loan [1%Z] ex_budget [ex_direct; ex_same_month] 10
          = Raise e →
       GetMonthlyPayment ex_loan = Raise e)
  ∧ (∀ evals, LoanCalc ex_loan [1%Z] ex_budget [ex_direct; ex_same_month] 10
              = Ok evals →
       ∃ m, GetMonthlyPayment ex_loan = Ok m
         ∧ Forall (λ ev, LoanEval.monthly_payments ev = m) evals).
Proof.
  assert (Hall : all_direct [ex_direct; ex_same_month])
    by (repeat constructor).
  split; [exact Hall|].
  apply (direct_payments_keep_payment ex_loan [1%Z] ex_budget
           [ex_direct; ex_same_month] 10 Hall).
Defined.

Lemma budget_compounds_witness :
  ∃ s0 s,
    init ex_loan [] ex_budget [] = Ok s0
    ∧ after_months ex_loan [] 2 s0 = Ok s
    ∧ raises (Budget.month_offset ex_budget) (terms_paid s) = 1%nat
    ∧ (let k := raises (Budget.month_offset ex_budget) (terms_paid s) in
       Budget.monthly_income (budget s)
       = compound (Budget.monthly_income ex_budget)
           (1 + Budget.salary_rate_increase ex_budget / fl 100) k
       ∧ Budget.monthly_expenses (budget s)
         = compound (Budget.monthly_expenses ex_budget)
             (1 + Budget.expenses_rate_increase ex_budget / fl 100) k).
Proof.
  eexists _, _. split; [run|]. split; [run|]. split; [run|].
  eapply (budget_compounds ex_loan [] ex_budget []); [run|].
  apply (after_months_rtc ex_loan [] 2). run.
Defined.

Lemma unread_payment_fields_witness :
  Forall2 same_payment [ex_reamortizing] [ex_reamortizing_other]
  ∧ LoanCalc ex_arm [2%Z] ex_budget [ex_reamortizing] 10
    = LoanCalc ex_arm [2%Z] ex_budget [ex_reamortizing_other] 10.
Proof.
  assert (Hsame : Forall2 same_payment [ex_reamortizing]
                    [ex_reamortizing_other]).
  { constructor; [|constructor]. unfold same_payment; simpl.
    split_and!; try reflexivity. intros _. split_and!; reflexivity. }
  split; [exact Hsame|].
  apply (unread_payment_fields ex_arm [2%Z] ex_budget [ex_reamortizing]
           [ex_reamortizing_other] 10 Hsame).
Defined.
